(** * Design-pattern demos: decorator chains, factory method, singleton

    A shallow embedding of four of the repository's example programs:

    - [structural/decorator/Eg1_Coffee_Shop.py]
    - [structural/decorator/Eg2_Notification_System.py]
    - [creational/factory.py]
    - [creational/singleton.py]

    Python objects live in an object store and are named by references, so
    that identity ([is], [id]) and sharing are visible.  A method call that
    dispatches on the class of the receiver is a recursive function on the
    store; its [fuel] is the number of nested call frames that the
    interpreter still allows, and a call that needs more raises.  Python
    integers are [Z].  A [str] is the [string] of its UTF-8 bytes. *)

From Stdlib Require Import ZArith String List Lia.
From stdpp Require Import base option list strings pretty.

Open Scope string_scope.
Open Scope list_scope.
Open Scope Z_scope.

(** ** Object store *)

(** A reference is the position of the object in the store: objects are
    never freed while the examples run, and a new object gets the next
    position. *)
Definition ref := nat.

Section store.
Context {object : Type}.

(** Instantiating a class: the new object is put at a fresh reference and
    every other object is left as it is. *)
Definition new (o : object) (h : list object) : list object * ref :=
  (h ++ [o], length h).

(** [extends h h']: [h'] is [h] after some more allocations. *)
Definition extends (h h' : list object) : Prop :=
  ∃ more, h' = h ++ more.
End store.

(** The shape of a store that only constructors have written: the
    constructor's argument is an object that exists already, so a field
    holds a reference below that of its own object.  [field] reads the one
    reference field of an object, if its class has it. *)
Section backward.
Context {object : Type}.
Variable field : object → option ref.

Fixpoint backward_from (i : nat) (h : list object) : bool :=
  match h with
  | [] => true
  | o :: h =>
      match field o with
      | Some b => Nat.ltb b i
      | None => true
      end && backward_from (S i) h
  end.

Definition backward (h : list object) : bool := backward_from 0 h.
End backward.

(** The console is the list of lines printed so far, one per [print]. *)
Definition console := list string.

Definition print (line : string) (out : console) : console := out ++ [line].

(** ** structural/decorator/Eg1_Coffee_Shop.py *)
Module Eg1_Coffee_Shop.

(** The instantiable classes under [Beverage].  [AddonDecorator] overrides
    both abstract methods, so it has no abstract method left.  The
    decorators' one field is [self.beverage], set by
    [AddonDecorator.__init__] and never assigned again. *)
Inductive object :=
| Coffee
| AddonDecorator (beverage : ref)
| Milk (beverage : ref)
| Sugar (beverage : ref)
| Caramel (beverage : ref).

Abbreviation heap := (list object).

Section methods.
(** [self.beverage.cost()] and [self.beverage.description()]: the call
    is dispatched on the class of the wrapped object. *)
Variable cost : ref → option Z.
Variable description : ref → option string.

Definition Coffee_cost : option Z := Some 50.
Definition Coffee_description : option string := Some "Plain Coffee".

Definition AddonDecorator_cost (beverage : ref) : option Z :=
  cost beverage.
Definition AddonDecorator_description (beverage : ref) : option string :=
  description beverage.

Definition Milk_cost (beverage : ref) : option Z :=
  c ← cost beverage; Some (c + 10).
Definition Milk_description (beverage : ref) : option string :=
  d ← description beverage; Some (d +:+ " + Milk").

Definition Sugar_cost (beverage : ref) : option Z :=
  c ← cost beverage; Some (c + 5).
Definition Sugar_description (beverage : ref) : option string :=
  d ← description beverage; Some (d +:+ " + Sugar").

Definition Caramel_cost (beverage : ref) : option Z :=
  c ← cost beverage; Some (c + 20).
Definition Caramel_description (beverage : ref) : option string :=
  d ← description beverage; Some (d +:+ " + Caramel").
End methods.

(** [self.cost()] on the object at [self].  [None]: the call raises (no
    such object, or the call depth is used up). *)
Fixpoint cost (fuel : nat) (h : heap) (self : ref) : option Z :=
  match fuel with
  | O => None
  | S fuel =>
      match h !! self with
      | None => None
      | Some Coffee => Coffee_cost
      | Some (AddonDecorator beverage) =>
          AddonDecorator_cost (cost fuel h) beverage
      | Some (Milk beverage) => Milk_cost (cost fuel h) beverage
      | Some (Sugar beverage) => Sugar_cost (cost fuel h) beverage
      | Some (Caramel beverage) => Caramel_cost (cost fuel h) beverage
      end
  end.

Fixpoint description (fuel : nat) (h : heap) (self : ref) : option string :=
  match fuel with
  | O => None
  | S fuel =>
      match h !! self with
      | None => None
      | Some Coffee => Coffee_description
      | Some (AddonDecorator beverage) =>
          AddonDecorator_description (description fuel h) beverage
      | Some (Milk beverage) => Milk_description (description fuel h) beverage
      | Some (Sugar beverage) =>
          Sugar_description (description fuel h) beverage
      | Some (Caramel beverage) =>
          Caramel_description (description fuel h) beverage
      end
  end.

(** The concrete decorators a client chooses from. *)
Inductive addon := AddMilk | AddSugar | AddCaramel.

(** The object that [D(beverage)] makes for the chosen class [D]: the
    inherited [__init__] stores the argument in [self.beverage]. *)
Definition wrapper (d : addon) (beverage : ref) : object :=
  match d with
  | AddMilk => Milk beverage
  | AddSugar => Sugar beverage
  | AddCaramel => Caramel beverage
  end.

(** [D(beverage)] *)
Definition wrap (d : addon) (beverage : ref) (h : heap) : heap * ref :=
  new (wrapper d beverage) h.

(** The client's composition: each wrap takes the chain built so far and
    gives the reference of the new outermost object. *)
Fixpoint wrap_all (ds : list addon) (beverage : ref) (h : heap)
  : heap * ref :=
  match ds with
  | [] => (h, beverage)
  | d :: ds => let '(h, b) := wrap d beverage h in wrap_all ds b h
  end.

(** A chain around a new [Coffee()]. *)
Definition order (ds : list addon) (h : heap) : heap * ref :=
  let '(h, coffee) := new Coffee h in wrap_all ds coffee h.

(** One line of the client's output:
    [print(f"{b.description()} : ₹{b.cost()}")]. *)
Definition print_beverage (fuel : nat) (h : heap) (b : ref) (out : console)
  : option console :=
  d ← description fuel h b;
  c ← cost fuel h b;
  Some (print (d +:+ " : ₹" +:+ pretty c) out).

(** The [__main__] block. *)
Definition main (fuel : nat) (h : heap) (out : console)
  : option (heap * console) :=
  let '(h, coffee) := new Coffee h in
  out ← print_beverage fuel h coffee out;
  let '(h, coffee_with_milk) := new (Milk coffee) h in
  out ← print_beverage fuel h coffee_with_milk out;
  let '(h, coffee_with_milk_sugar) := new (Sugar coffee_with_milk) h in
  out ← print_beverage fuel h coffee_with_milk_sugar out;
  let '(h, deluxe_coffee) := new (Caramel coffee_with_milk_sugar) h in
  out ← print_beverage fuel h deluxe_coffee out;
  Some (h, out).

(** What the claims call the declared contribution of a decorator: the
    price it adds and the text it appends. *)
Definition price_delta (d : addon) : Z :=
  match d with AddMilk => 10 | AddSugar => 5 | AddCaramel => 20 end.

Definition suffix (d : addon) : string :=
  match d with
  | AddMilk => " + Milk"
  | AddSugar => " + Sugar"
  | AddCaramel => " + Caramel"
  end.

(** The contributions folded over a base result in wrap order. *)
Definition fold_cost (base : Z) (ds : list addon) : Z :=
  fold_left (λ c d, c + price_delta d) ds base.

Definition fold_description (base : string) (ds : list addon) : string :=
  fold_left (λ s d, s +:+ suffix d) ds base.

#[global] Instance addon_eq_dec : EqDecision addon.
Proof. solve_decision. Defined.

(** How many times the class [d] was chosen. *)
Definition per (d : addon) (ds : list addon) : Z :=
  Z.of_nat (length (filter (λ x, x = d) ds)).

(** [self.beverage], which only the decorators have. *)
Definition beverage (o : object) : option ref :=
  match o with
  | Coffee => None
  | AddonDecorator b | Milk b | Sugar b | Caramel b => Some b
  end.

End Eg1_Coffee_Shop.

(** ** structural/decorator/Eg2_Notification_System.py *)
Module Eg2_Notification_System.

(** The instantiable classes under [Notifier].  [NotificationDecorator]
    overrides [send], the only abstract method.  The decorators' one
    field is [self.notifier]. *)
Inductive object :=
| BasicNotifier
| NotificationDecorator (notifier : ref)
| EmailNotifier (notifier : ref)
| SMSNotifier (notifier : ref)
| PushNotifier (notifier : ref).

Abbreviation heap := (list object).

Section methods.
(** [self.notifier.send(message)], dispatched on the wrapped object.
    A call takes the console as it is and gives it back with the lines
    it printed; [None]: the call raises. *)
Variable send : ref → string → console → option console.

Definition BasicNotifier_send (message : string) (out : console)
  : option console :=
  Some (print ("Basic Notificatio: " +:+ message) out).

Definition NotificationDecorator_send
  (notifier : ref) (message : string) (out : console) : option console :=
  send notifier message out.

(** [super().send(message)] is [NotificationDecorator.send]. *)
Definition EmailNotifier_send
  (notifier : ref) (message : string) (out : console) : option console :=
  out ← NotificationDecorator_send notifier message out;
  Some (print ("📧 Sending Email: " +:+ message) out).

Definition SMSNotifier_send
  (notifier : ref) (message : string) (out : console) : option console :=
  out ← NotificationDecorator_send notifier message out;
  Some (print ("📱 Sending SMS: " +:+ message) out).

Definition PushNotifier_send
  (notifier : ref) (message : string) (out : console) : option console :=
  out ← NotificationDecorator_send notifier message out;
  Some (print ("🔔 Sending Push Notification: " +:+ message) out).
End methods.

Fixpoint send (fuel : nat) (h : heap) (self : ref)
  (message : string) (out : console) : option console :=
  match fuel with
  | O => None
  | S fuel =>
      match h !! self with
      | None => None
      | Some BasicNotifier => BasicNotifier_send message out
      | Some (NotificationDecorator notifier) =>
          NotificationDecorator_send (send fuel h) notifier message out
      | Some (EmailNotifier notifier) =>
          EmailNotifier_send (send fuel h) notifier message out
      | Some (SMSNotifier notifier) =>
          SMSNotifier_send (send fuel h) notifier message out
      | Some (PushNotifier notifier) =>
          PushNotifier_send (send fuel h) notifier message out
      end
  end.

(** The concrete decorators a client chooses from. *)
Inductive channel := ViaEmail | ViaSMS | ViaPush.

(** The object that [D(notifier)] makes for the chosen class [D]: the
    inherited [__init__] stores the argument in [self.notifier]. *)
Definition wrapper (d : channel) (notifier : ref) : object :=
  match d with
  | ViaEmail => EmailNotifier notifier
  | ViaSMS => SMSNotifier notifier
  | ViaPush => PushNotifier notifier
  end.

(** [D(notifier)] *)
Definition wrap (d : channel) (notifier : ref) (h : heap) : heap * ref :=
  new (wrapper d notifier) h.

Fixpoint wrap_all (ds : list channel) (notifier : ref) (h : heap)
  : heap * ref :=
  match ds with
  | [] => (h, notifier)
  | d :: ds => let '(h, n) := wrap d notifier h in wrap_all ds n h
  end.

(** A chain around a new [BasicNotifier()]. *)
Definition chain (ds : list channel) (h : heap) : heap * ref :=
  let '(h, notifier) := new BasicNotifier h in wrap_all ds notifier h.

(** The line that is a concrete decorator's own effect. *)
Definition own_line (d : channel) (message : string) : string :=
  match d with
  | ViaEmail => "📧 Sending Email: " +:+ message
  | ViaSMS => "📱 Sending SMS: " +:+ message
  | ViaPush => "🔔 Sending Push Notification: " +:+ message
  end.

(** [self.notifier], which only the decorators have. *)
Definition notifier (o : object) : option ref :=
  match o with
  | BasicNotifier => None
  | NotificationDecorator x | EmailNotifier x | SMSNotifier x
  | PushNotifier x => Some x
  end.

(** The line that [BasicNotifier.send] prints. *)
Definition basic_line (message : string) : string :=
  "Basic Notificatio: " +:+ message.

End Eg2_Notification_System.

(** ** creational/factory.py *)
Module factory.

(** The instantiable classes: three products under [Notification] and
    three creators under [NotificationFactory].  None has a field. *)
Inductive object :=
| EmailNotification
| SMSNotification
| PushNotification
| SMSNotificationFactory
| EmailNotificationFactory
| PushNotificationFactory.

Abbreviation heap := (list object).

Inductive exception := ValueError (msg : string).

(** [str(e)] *)
Definition str (e : exception) : string :=
  match e with ValueError msg => msg end.

(** A call returns a value or raises. *)
Inductive outcome (A : Type) :=
| Return (a : A)
| Raise (e : exception).
Arguments Return {A} a.
Arguments Raise {A} e.

Definition isinstance_Notification (o : object) : bool :=
  match o with
  | EmailNotification | SMSNotification | PushNotification => true
  | _ => false
  end.

Definition isinstance_NotificationFactory (o : object) : bool :=
  match o with
  | SMSNotificationFactory | EmailNotificationFactory
  | PushNotificationFactory => true
  | _ => false
  end.

(** [self.notify(message)].  [None]: there is no such method (the
    creators have none) or no such object. *)
Definition notify (h : heap) (self : ref) (message : string) (out : console)
  : option console :=
  o ← h !! self;
  match o with
  | EmailNotification => Some (print ("📧 Sending Email: " +:+ message) out)
  | SMSNotification => Some (print ("📱 Sending SMS: " +:+ message) out)
  | PushNotification =>
      Some (print ("📲 Sending Push Notification: " +:+ message) out)
  | _ => None
  end.

(** [self.create_notification()] of the three creators. *)
Definition create_notification (h : heap) (self : ref)
  : option (heap * ref) :=
  o ← h !! self;
  match o with
  | SMSNotificationFactory => Some (new SMSNotification h)
  | EmailNotificationFactory => Some (new EmailNotification h)
  | PushNotificationFactory => Some (new PushNotification h)
  | _ => None
  end.

(** [NotificationFactory.send_notification] *)
Definition send_notification
  (h : heap) (self : ref) (message : string) (out : console)
  : option (heap * console) :=
  '(h, notification) ← create_notification h self;
  out ← notify h notification message out;
  Some (h, out).

Definition get_notification_factory (notification_type : string) (h : heap)
  : heap * outcome ref :=
  if String.eqb notification_type "email" then
    let '(h, r) := new EmailNotification h in (h, Return r)
  else if String.eqb notification_type "sms" then
    let '(h, r) := new SMSNotification h in (h, Return r)
  else if String.eqb notification_type "push" then
    let '(h, r) := new PushNotification h in (h, Return r)
  else
    (h, Raise (ValueError "Invalid notification type")).

(** The [__main__] block, from the line read from the console (after
    [.strip().lower()]) on. *)
Definition main (notification_type : string) (h : heap) (out : console)
  : option (heap * console) :=
  match get_notification_factory notification_type h with
  | (h, Return notification) =>
      out ← notify h notification "Hello this is your notification" out;
      Some (h, out)
  | (h, Raise e) => Some (h, print ("Error : " +:+ str e) out)
  end.

End factory.

(** ** creational/singleton.py *)
Module singleton.

(** Instances of [Singleton] have no field. *)
Inductive object := Singleton.

(** The store and the two class attributes.  [_lock] is [true] while the
    lock is held. *)
Record world := World {
  heap : list object;
  _instance : option ref;
  _lock : bool;
}.

(** The state when the class statement has run. *)
Definition initial : world :=
  {| heap := []; _instance := None; _lock := false |}.

(** Entering [with cls._lock:].  [None]: the lock is held, and the caller
    waits. *)
Definition acquire (w : world) : option world :=
  if _lock w then None
  else Some {| heap := heap w; _instance := _instance w; _lock := true |}.

(** Leaving the [with] block. *)
Definition release (w : world) : world :=
  {| heap := heap w; _instance := _instance w; _lock := false |}.

(** [Singleton.__new__(cls)], which is all that [Singleton()] runs: the
    inherited [__init__] does nothing. *)
Definition __new__ (w : world) : option (world * ref) :=
  w ← acquire w;
  let w :=
    match _instance w with
    | None =>
        let '(h, r) := new Singleton (heap w) in
        {| heap := h; _instance := Some r; _lock := _lock w |}
    | Some _ => w
    end in
  r ← _instance w;
  Some (release w, r).

(** [n] calls of [Singleton()] one after the other, with the objects they
    returned. *)
Fixpoint calls (n : nat) (w : world) : option (world * list ref) :=
  match n with
  | O => Some (w, [])
  | S n =>
      '(w, r) ← __new__ w;
      '(w, rs) ← calls n w;
      Some (w, r :: rs)
  end.

(** The module's script: [obj1 = Singleton()], [obj2 = Singleton()], and
    the value of [id(obj1) == id(obj2)] that it prints last. *)
Definition script (w : world) : option (world * bool) :=
  '(w, obj1) ← __new__ w;
  '(w, obj2) ← __new__ w;
  Some (w, bool_decide (obj1 = obj2)).

(** *** Several callers

    The callers of [Singleton()] may be threads.  Each is somewhere in
    [__new__]; a step of one caller runs one statement of it, and a
    schedule says whose turn it is. *)
Inductive pc :=
| Calling             (* before [with cls._lock:] *)
| Testing             (* in the block, before [if cls._instance is None] *)
| Creating            (* before [cls._instance = super().__new__(cls)] *)
| Reading             (* before [return cls._instance] *)
| Leaving (r : ref)   (* the value to return is read, the lock still held *)
| Returned (r : ref).

(** One statement of a caller.  [None]: the caller cannot move (it waits
    for the lock, or it has returned). *)
Definition thread_step (w : world) (p : pc) : option (world * pc) :=
  match p with
  | Calling => w ← acquire w; Some (w, Testing)
  | Testing =>
      match _instance w with
      | None => Some (w, Creating)
      | Some _ => Some (w, Reading)
      end
  | Creating =>
      let '(h, r) := new Singleton (heap w) in
      Some ({| heap := h; _instance := Some r; _lock := _lock w |}, Reading)
  | Reading => r ← _instance w; Some (w, Leaving r)
  | Leaving r => Some (release w, Returned r)
  | Returned _ => None
  end.

(** Caller [i] takes a step. *)
Definition step (i : nat) (c : world * list pc) : option (world * list pc) :=
  p ← c.2 !! i;
  '(w, p) ← thread_step c.1 p;
  Some (w, <[i:=p]> c.2).

(** The callers run as the schedule says; the turn of a caller that cannot
    move is lost. *)
Definition run (schedule : list nat) (c : world * list pc)
  : world * list pc :=
  fold_left (λ c i, default c (step i c)) schedule c.

(** The schedule in which the callers [k], [k+1], ... ([n] of them) run
    one after the other, each with five turns in a row: [__new__] has at
    most five statements to run. *)
Fixpoint in_turn (k n : nat) : list nat :=
  match n with
  | O => []
  | S n => replicate 5 k ++ in_turn (S k) n
  end.

(** In the [with] block. *)
Definition inside (p : pc) : bool :=
  match p with
  | Testing | Creating | Reading | Leaving _ => true
  | Calling | Returned _ => false
  end.

Definition returned (p : pc) : bool :=
  match p with Returned _ => true | _ => false end.

(** What a caller at [p] can rely on. *)
Definition thread_ok (w : world) (p : pc) : Prop :=
  match p with
  | Calling | Testing => True
  | Creating => _instance w = None
  | Reading => is_Some (_instance w)
  | Leaving r | Returned r => _instance w = Some r
  end.

(** What holds of every state that the callers reach from [w0]: one caller
    at most is in the block, and then the lock is held; each caller can
    rely on [thread_ok]; and the store is that of [w0], with one more
    object when this run made the instance. *)
Record invariant (w0 : world) (c : world * list pc) : Prop := {
  inv_exclusive : ∀ i j p q,
    c.2 !! i = Some p → c.2 !! j = Some q →
    inside p = true → inside q = true → i = j;
  inv_lock : _lock c.1 = true ↔ ∃ i p, c.2 !! i = Some p ∧ inside p = true;
  inv_threads : ∀ i p, c.2 !! i = Some p → thread_ok c.1 p;
  inv_store :
    (_instance c.1 = _instance w0 ∧ heap c.1 = heap w0) ∨
    (_instance w0 = None ∧ _instance c.1 = Some (length (heap w0)) ∧
     heap c.1 = heap w0 ++ [Singleton]);
}.

End singleton.

(** * Checks on concrete runs *)

Example main_prints :
  Eg1_Coffee_Shop.main 4 [] [] = Some (
    [Eg1_Coffee_Shop.Coffee; Eg1_Coffee_Shop.Milk 0%nat;
     Eg1_Coffee_Shop.Sugar 1%nat; Eg1_Coffee_Shop.Caramel 2%nat],
    ["Plain Coffee : ₹50"; "Plain Coffee + Milk : ₹60";
     "Plain Coffee + Milk + Sugar : ₹65";
     "Plain Coffee + Milk + Sugar + Caramel : ₹85"]).
Proof. vm_compute. reflexivity. Qed.

Example full_notifier_prints :
  let '(h, full_notifier) :=
    Eg2_Notification_System.chain
      [Eg2_Notification_System.ViaEmail; Eg2_Notification_System.ViaSMS;
       Eg2_Notification_System.ViaPush] [] in
  Eg2_Notification_System.send 4 h full_notifier "Hello, User!" []
  = Some ["Basic Notificatio: Hello, User!";
          "📧 Sending Email: Hello, User!";
          "📱 Sending SMS: Hello, User!";
          "🔔 Sending Push Notification: Hello, User!"].
Proof. vm_compute. reflexivity. Qed.

Example factory_main_sms :
  factory.main "sms" [] []
  = Some ([factory.SMSNotification],
          ["📱 Sending SMS: Hello this is your notification"]).
Proof. vm_compute. reflexivity. Qed.

Example factory_main_fax :
  factory.main "fax" [] [] = Some ([], ["Error : Invalid notification type"]).
Proof. vm_compute. reflexivity. Qed.

Example creator_sends :
  factory.send_notification [factory.PushNotificationFactory] 0%nat "hi" []
  = Some ([factory.PushNotificationFactory; factory.PushNotification],
          ["📲 Sending Push Notification: hi"]).
Proof. vm_compute. reflexivity. Qed.

Example second_chain_in_same_store :
  extends
    (Eg1_Coffee_Shop.wrap_all [Eg1_Coffee_Shop.AddMilk] 0%nat
       [Eg1_Coffee_Shop.Coffee]).1
    [Eg1_Coffee_Shop.Coffee; Eg1_Coffee_Shop.Milk 0%nat;
     Eg1_Coffee_Shop.Coffee].
Proof. now exists [Eg1_Coffee_Shop.Coffee]. Qed.

(** * The object store *)
Section store_facts.
Context {object : Type}.
Implicit Types (h : list object) (o : object) (r : ref).

Lemma new_heap o h : (new o h).1 = h ++ [o].
Proof. reflexivity. Qed.

Lemma new_ref o h : (new o h).2 = length h.
Proof. reflexivity. Qed.

Lemma lookup_new o h : (new o h).1 !! (new o h).2 = Some o.
Proof.
  rewrite new_heap, new_ref.
  rewrite lookup_app_r by reflexivity.
  now rewrite Nat.sub_diag.
Qed.

Lemma lookup_new_old o h r x :
  h !! r = Some x → (new o h).1 !! r = Some x.
Proof. intros Hr. rewrite new_heap. now apply lookup_app_l_Some. Qed.

Lemma new_fresh o h : h !! (new o h).2 = None.
Proof. rewrite new_ref. now apply lookup_ge_None_2. Qed.

Lemma extends_refl h : extends h h.
Proof. exists []. now rewrite app_nil_r. Qed.

Lemma extends_trans h1 h2 h3 :
  extends h1 h2 → extends h2 h3 → extends h1 h3.
Proof.
  intros [m1 ->] [m2 ->]. exists (m1 ++ m2). now rewrite app_assoc.
Qed.

Lemma extends_new o h : extends h (new o h).1.
Proof. now exists [o]. Qed.

Lemma extends_lookup h h' r x :
  extends h h' → h !! r = Some x → h' !! r = Some x.
Proof. intros [more ->] Hr. now apply lookup_app_l_Some. Qed.

Lemma extends_length h h' : extends h h' → (length h ≤ length h')%nat.
Proof. intros [more ->]. rewrite length_app. lia. Qed.
End store_facts.

(** * Eg1_Coffee_Shop: beverages *)
Section Eg1_Coffee_Shop_facts.
Import Eg1_Coffee_Shop.
Implicit Types (h : heap) (b r : ref) (d : addon) (ds : list addon).

(** One call frame of each method. *)
Lemma cost_S n h r :
  cost (S n) h r =
  match h !! r with
  | None => None
  | Some Coffee => Some 50
  | Some (AddonDecorator x) => cost n h x
  | Some (Milk x) => c ← cost n h x; Some (c + 10)
  | Some (Sugar x) => c ← cost n h x; Some (c + 5)
  | Some (Caramel x) => c ← cost n h x; Some (c + 20)
  end.
Proof. reflexivity. Qed.

Lemma description_S n h r :
  description (S n) h r =
  match h !! r with
  | None => None
  | Some Coffee => Some "Plain Coffee"
  | Some (AddonDecorator x) => description n h x
  | Some (Milk x) => s ← description n h x; Some (s +:+ " + Milk")
  | Some (Sugar x) => s ← description n h x; Some (s +:+ " + Sugar")
  | Some (Caramel x) => s ← description n h x; Some (s +:+ " + Caramel")
  end.
Proof. reflexivity. Qed.

(** A result does not depend on the call depth that was left over. *)
Lemma cost_fuel_S n h r c : cost n h r = Some c → cost (S n) h r = Some c.
Proof.
  revert r c. induction n as [|n IH]; intros r c; [discriminate|].
  rewrite (cost_S (S n)), (cost_S n).
  destruct (h !! r) as [[|x|x|x|x]|]; try done; try apply IH;
    (destruct (cost n h x) as [c'|] eqn:E; [|discriminate];
     now rewrite (IH _ _ E)).
Qed.

Lemma description_fuel_S n h r s :
  description n h r = Some s → description (S n) h r = Some s.
Proof.
  revert r s. induction n as [|n IH]; intros r s; [discriminate|].
  rewrite (description_S (S n)), (description_S n).
  destruct (h !! r) as [[|x|x|x|x]|]; try done; try apply IH;
    (destruct (description n h x) as [s'|] eqn:E; [|discriminate];
     now rewrite (IH _ _ E)).
Qed.

Lemma cost_fuel n m h r c :
  (n ≤ m)%nat → cost n h r = Some c → cost m h r = Some c.
Proof.
  intros Hle. induction Hle as [|m Hle IH]; [done|].
  intros H. now apply cost_fuel_S, IH.
Qed.

Lemma description_fuel n m h r s :
  (n ≤ m)%nat → description n h r = Some s → description m h r = Some s.
Proof.
  intros Hle. induction Hle as [|m Hle IH]; [done|].
  intros H. now apply description_fuel_S, IH.
Qed.

(** Frame: a result is not changed by objects allocated later. *)
Lemma cost_extends n h h' r c :
  extends h h' → cost n h r = Some c → cost n h' r = Some c.
Proof.
  intros Hext. revert r c. induction n as [|n IH]; intros r c; [done|].
  rewrite !cost_S. destruct (h !! r) as [o|] eqn:Hr; [|done].
  rewrite (extends_lookup _ _ _ _ Hext Hr).
  destruct o as [|x|x|x|x]; try done; try apply IH;
    (destruct (cost n h x) as [c'|] eqn:E; [|discriminate];
     now rewrite (IH _ _ E)).
Qed.

Lemma description_extends n h h' r s :
  extends h h' → description n h r = Some s → description n h' r = Some s.
Proof.
  intros Hext. revert r s. induction n as [|n IH]; intros r s; [done|].
  rewrite !description_S. destruct (h !! r) as [o|] eqn:Hr; [|done].
  rewrite (extends_lookup _ _ _ _ Hext Hr).
  destruct o as [|x|x|x|x]; try done; try apply IH;
    (destruct (description n h x) as [s'|] eqn:E; [|discriminate];
     now rewrite (IH _ _ E)).
Qed.

Lemma wrap_new d b h : wrap d b h = new (wrapper d b) h.
Proof. reflexivity. Qed.

Lemma wrap_extends d b h : extends h (wrap d b h).1.
Proof. rewrite wrap_new. apply extends_new. Qed.

Lemma wrap_all_cons d ds b h :
  wrap_all (d :: ds) b h = wrap_all ds (wrap d b h).2 (wrap d b h).1.
Proof. reflexivity. Qed.

Lemma wrap_all_extends ds : ∀ b h, extends h (wrap_all ds b h).1.
Proof.
  induction ds as [|d ds IH]; intros b h; [apply extends_refl|].
  rewrite wrap_all_cons.
  eapply extends_trans; [apply wrap_extends|apply IH].
Qed.

(** One layer: the wrapped result, then the decorator's contribution. *)
Lemma cost_wrap n d b h c :
  cost n h b = Some c →
  cost (S n) (wrap d b h).1 (wrap d b h).2 = Some (c + price_delta d).
Proof.
  intros H. rewrite wrap_new, cost_S, lookup_new.
  apply (cost_extends _ _ (new (wrapper d b) h).1) in H;
    [|apply extends_new].
  set (h' := (new (wrapper d b) h).1) in *.
  destruct d; simpl wrapper; cbv iota; now rewrite H.
Qed.

Lemma description_wrap n d b h s :
  description n h b = Some s →
  description (S n) (wrap d b h).1 (wrap d b h).2 = Some (s +:+ suffix d).
Proof.
  intros H. rewrite wrap_new, description_S, lookup_new.
  apply (description_extends _ _ (new (wrapper d b) h).1) in H;
    [|apply extends_new].
  set (h' := (new (wrapper d b) h).1) in *.
  destruct d; simpl wrapper; cbv iota; now rewrite H.
Qed.

(** A whole chain: the contributions are folded in wrap order. *)
Lemma cost_wrap_all ds : ∀ n b h c,
  cost n h b = Some c →
  cost (length ds + n) (wrap_all ds b h).1 (wrap_all ds b h).2
  = Some (fold_cost c ds).
Proof.
  induction ds as [|d ds IH]; intros n b h c H; [exact H|].
  rewrite wrap_all_cons.
  replace (length (d :: ds) + n)%nat with (length ds + S n)%nat
    by (simpl; lia).
  apply (IH (S n) _ _ (c + price_delta d)). now apply cost_wrap.
Qed.

Lemma description_wrap_all ds : ∀ n b h s,
  description n h b = Some s →
  description (length ds + n) (wrap_all ds b h).1 (wrap_all ds b h).2
  = Some (fold_description s ds).
Proof.
  induction ds as [|d ds IH]; intros n b h s H; [exact H|].
  rewrite wrap_all_cons.
  replace (length (d :: ds) + n)%nat with (length ds + S n)%nat
    by (simpl; lia).
  apply (IH (S n) _ _ (s +:+ suffix d)). now apply description_wrap.
Qed.

Lemma wrap_all_ref ds : ∀ b h,
  ds ≠ [] →
  S (wrap_all ds b h).2 = (length h + length ds)%nat.
Proof.
  induction ds as [|d ds IH]; intros b h Hne; [done|].
  rewrite wrap_all_cons.
  destruct ds as [|d' ds'].
  - simpl. lia.
  - rewrite IH by done. unfold wrap. rewrite new_heap, length_app.
    simpl. lia.
Qed.

Lemma wrap_all_length ds : ∀ b h,
  length (wrap_all ds b h).1 = (length h + length ds)%nat.
Proof.
  induction ds as [|d ds IH]; intros b h; [simpl; lia|].
  rewrite wrap_all_cons, IH. unfold wrap.
  rewrite new_heap, length_app. simpl. lia.
Qed.

Lemma cost_new_Coffee h n :
  cost (S n) (new Coffee h).1 (new Coffee h).2 = Some 50.
Proof. now rewrite cost_S, lookup_new. Qed.

Lemma description_new_Coffee h n :
  description (S n) (new Coffee h).1 (new Coffee h).2 = Some "Plain Coffee".
Proof. now rewrite description_S, lookup_new. Qed.

Lemma fold_cost_per ds : ∀ base,
  fold_cost base ds
  = base + 10 * per AddMilk ds + 5 * per AddSugar ds
    + 20 * per AddCaramel ds.
Proof.
  unfold fold_cost, per.
  induction ds as [|d ds IH]; intros base; [simpl; lia|].
  cbn [fold_left]. rewrite IH, !filter_cons.
  destruct d; repeat case_decide; try congruence;
    cbn [length price_delta]; lia.
Qed.

(** C1. For every finite sequence of choices among Milk, Sugar and
    Caramel wrapped in that order around a new Coffee, [cost()] of the
    chain returns the base cost 50 with each decorator's price added in
    wrap order, which is 50 plus 10 per Milk, 5 per Sugar and 20 per
    Caramel, and [description()] returns "Plain Coffee" with each
    decorator's suffix appended in wrap order.  The chain has
    [length ds + 1] objects; any call depth that covers them gives the
    result. *)
Theorem chain_is_fold (ds : list addon) (h : heap) (k : nat) :
  let '(h', r) := order ds h in
  cost (S (length ds) + k) h' r = Some (fold_cost 50 ds) ∧
  fold_cost 50 ds
    = 50 + 10 * per AddMilk ds + 5 * per AddSugar ds
      + 20 * per AddCaramel ds ∧
  description (S (length ds) + k) h' r
    = Some (fold_description "Plain Coffee" ds).
Proof.
  unfold order.
  pose proof (cost_wrap_all ds _ _ _ _ (cost_new_Coffee h k)) as Hc.
  pose proof (description_wrap_all ds _ _ _ _ (description_new_Coffee h k))
    as Hd.
  destruct (new Coffee h) as [h0 coffee]. cbn [fst snd] in Hc, Hd.
  destruct (wrap_all ds coffee h0) as [h' r]. cbn [fst snd] in Hc, Hd.
  replace (S (length ds) + k)%nat with (length ds + S k)%nat by lia.
  split; [exact Hc|]. split; [apply fold_cost_per|exact Hd].
Qed.

(** C2. A Coffee wrapped in Milk, then Sugar, then Caramel, as the client
    code builds it: [cost()] returns exactly 85 and [description()]
    returns exactly "Plain Coffee + Milk + Sugar + Caramel". *)
Theorem deluxe_coffee_85 (h : heap) (k : nat) :
  let '(h, coffee) := new Coffee h in
  let '(h, coffee_with_milk) := new (Milk coffee) h in
  let '(h, coffee_with_milk_sugar) := new (Sugar coffee_with_milk) h in
  let '(h, deluxe_coffee) := new (Caramel coffee_with_milk_sugar) h in
  cost (4 + k) h deluxe_coffee = Some 85 ∧
  description (4 + k) h deluxe_coffee
    = Some "Plain Coffee + Milk + Sugar + Caramel".
Proof.
  pose proof (cost_wrap_all [AddMilk; AddSugar; AddCaramel]
                _ _ _ _ (cost_new_Coffee h k)) as Hc.
  pose proof (description_wrap_all [AddMilk; AddSugar; AddCaramel]
                _ _ _ _ (description_new_Coffee h k)) as Hd.
  split; [exact Hc|exact Hd].
Qed.

(** C4. For every beverage [b] whose [cost()] and [description()] return,
    wrapping [b] in one concrete decorator [d] changes the results by
    exactly the decorator's contribution: the cost of the wrapper minus
    the cost of [b] is the price of [d], and the description of the
    wrapper is that of [b] followed by the suffix of [d].  A base of cost
    50 wrapped in Milk costs exactly 60. *)
Theorem one_layer_delta
  (h : heap) (b : ref) (d : addon) (n : nat) (c : Z) (s : string) :
  cost n h b = Some c →
  description n h b = Some s →
  let '(h', r) := wrap d b h in
  (∃ c', cost (S n) h' r = Some c' ∧ c' - c = price_delta d) ∧
  description (S n) h' r = Some (s +:+ suffix d) ∧
  cost n h' b = Some c ∧
  description n h' b = Some s ∧
  (d = AddMilk → c = 50 → cost (S n) h' r = Some 60).
Proof.
  intros Hc Hd.
  pose proof (cost_wrap n d b h c Hc) as Hc'.
  pose proof (description_wrap n d b h s Hd) as Hd'.
  pose proof (wrap_extends d b h) as Hext.
  destruct (wrap d b h) as [h' r]. cbn [fst snd] in *.
  split; [exists (c + price_delta d); split; [exact Hc'|lia]|].
  split; [exact Hd'|].
  split; [now apply (cost_extends n h)|].
  split; [now apply (description_extends n h)|].
  intros -> ->. exact Hc'.
Qed.

Lemma one_layer_delta_witness :
  let '(h', r) := wrap AddMilk 0%nat [Coffee] in
  (∃ c', cost 2 h' r = Some c' ∧ c' - 50 = price_delta AddMilk) ∧
  description 2 h' r = Some ("Plain Coffee" +:+ suffix AddMilk) ∧
  cost 1 h' 0%nat = Some 50 ∧
  description 1 h' 0%nat = Some "Plain Coffee" ∧
  (AddMilk = AddMilk → 50 = 50 → cost 2 h' r = Some 60).
Proof.
  apply (one_layer_delta [Coffee] 0%nat AddMilk 1 50 "Plain Coffee");
    reflexivity.
Defined.

(** C5. Building a chain is deterministic.  Two chains built from the
    same sequence of choices over bases with equal results, in any two
    stores (two runs, or twice in one run), give equal results for both
    operations.  When the second chain is built in the store that holds
    the first, the first still gives its results, and the two chains are
    different objects as soon as one wrap was made or the bases are
    different objects. *)
Theorem construction_deterministic
  (ds : list addon) (h1 h2 : heap) (b1 b2 : ref) (n1 n2 : nat)
  (c : Z) (s : string) :
  cost n1 h1 b1 = Some c → cost n2 h2 b2 = Some c →
  description n1 h1 b1 = Some s → description n2 h2 b2 = Some s →
  let '(h1', r1) := wrap_all ds b1 h1 in
  let '(h2', r2) := wrap_all ds b2 h2 in
  (∃ c' s',
      cost (length ds + n1) h1' r1 = Some c' ∧
      cost (length ds + n2) h2' r2 = Some c' ∧
      description (length ds + n1) h1' r1 = Some s' ∧
      description (length ds + n2) h2' r2 = Some s' ∧
      (extends h1' h2 →
       cost (length ds + n1) h2' r1 = Some c' ∧
       description (length ds + n1) h2' r1 = Some s')) ∧
  (extends h1' h2 → ds ≠ [] ∨ b1 ≠ b2 → r1 ≠ r2).
Proof.
  intros Hc1 Hc2 Hd1 Hd2.
  pose proof (cost_wrap_all ds _ _ _ _ Hc1) as C1.
  pose proof (cost_wrap_all ds _ _ _ _ Hc2) as C2.
  pose proof (description_wrap_all ds _ _ _ _ Hd1) as D1.
  pose proof (description_wrap_all ds _ _ _ _ Hd2) as D2.
  pose proof (wrap_all_extends ds b2 h2) as E2.
  assert (extends (wrap_all ds b1 h1).1 h2 → ds ≠ [] ∨ b1 ≠ b2 →
          (wrap_all ds b1 h1).2 ≠ (wrap_all ds b2 h2).2) as Hneq.
  { intros E12 Hne. apply extends_length in E12.
    rewrite wrap_all_length in E12.
    destruct ds as [|d ds]; [now destruct Hne|].
    pose proof (wrap_all_ref (d :: ds) b1 h1) as R1.
    pose proof (wrap_all_ref (d :: ds) b2 h2) as R2.
    simpl length in *. specialize (R1 ltac:(done)).
    specialize (R2 ltac:(done)). lia. }
  destruct (wrap_all ds b1 h1) as [h1' r1].
  destruct (wrap_all ds b2 h2) as [h2' r2]. cbn [fst snd] in *.
  split; [|exact Hneq].
  exists (fold_cost c ds), (fold_description s ds).
  do 4 (split; [assumption|]).
  intros E12. pose proof (extends_trans _ _ _ E12 E2) as E.
  split.
  - exact (cost_extends _ _ _ _ _ E C1).
  - exact (description_extends _ _ _ _ _ E D1).
Qed.

Lemma construction_deterministic_witness :
  let '(h1', r1) := wrap_all [AddMilk] 0%nat [Coffee] in
  let '(h2', r2) := wrap_all [AddMilk] 2%nat [Coffee; Milk 0%nat; Coffee] in
  (∃ c' s',
      cost (1 + 1) h1' r1 = Some c' ∧
      cost (1 + 1) h2' r2 = Some c' ∧
      description (1 + 1) h1' r1 = Some s' ∧
      description (1 + 1) h2' r2 = Some s' ∧
      (extends h1' [Coffee; Milk 0%nat; Coffee] →
       cost (1 + 1) h2' r1 = Some c' ∧
       description (1 + 1) h2' r1 = Some s')) ∧
  (extends h1' [Coffee; Milk 0%nat; Coffee] →
   [AddMilk] ≠ [] ∨ 0%nat ≠ 2%nat → r1 ≠ r2).
Proof.
  apply (construction_deterministic [AddMilk]
           [Coffee] [Coffee; Milk 0%nat; Coffee] 0%nat 2%nat 1 1
           50 "Plain Coffee"); reflexivity.
Defined.

Lemma cost_Some_lookup n h r c : cost n h r = Some c → is_Some (h !! r).
Proof.
  destruct n as [|n]; [done|]. rewrite cost_S.
  destruct (h !! r); [eauto|done].
Qed.

(** C7. Wrapping never mutates the wrapped object.  For every component
    [c] and every class [D] whose constructor takes the wrapped object,
    after [D(c)] each operation of [c] returns what it returned before,
    every object that was in the store is still there as it was, and the
    reference of the wrapper is new: it named no object before and it is
    not [c].  A bare Coffee still reports 50 and "Plain Coffee". *)
Theorem wrap_leaves_wrapped_unchanged
  (h : heap) (c : ref) (D : ref → object) (n : nat) (v : Z) (s : string) :
  cost n h c = Some v →
  description n h c = Some s →
  let '(h', r) := new (D c) h in
  cost n h' c = Some v ∧
  description n h' c = Some s ∧
  (∀ i x, h !! i = Some x → h' !! i = Some x) ∧
  (h !! c = Some Coffee →
   cost 1 h' c = Some 50 ∧ description 1 h' c = Some "Plain Coffee") ∧
  h !! r = None ∧
  h' !! r = Some (D c) ∧
  r ≠ c.
Proof.
  intros Hc Hd.
  pose proof (extends_new (D c) h) as Hext.
  pose proof (lookup_new (D c) h) as Hnew.
  pose proof (new_fresh (D c) h) as Hfresh.
  destruct (new (D c) h) as [h' r]. cbn [fst snd] in *.
  split; [exact (cost_extends _ _ _ _ _ Hext Hc)|].
  split; [exact (description_extends _ _ _ _ _ Hext Hd)|].
  split; [intros i x; apply extends_lookup, Hext|].
  split.
  { intros Hcof. apply (extends_lookup _ _ _ _ Hext) in Hcof.
    now rewrite cost_S, description_S, Hcof. }
  split; [exact Hfresh|]. split; [exact Hnew|].
  intros ->. apply cost_Some_lookup in Hc. rewrite Hfresh in Hc.
  now destruct Hc.
Qed.

Lemma wrap_leaves_wrapped_unchanged_witness :
  let '(h', r) := new (Milk 0%nat) [Coffee] in
  cost 1 h' 0%nat = Some 50 ∧
  description 1 h' 0%nat = Some "Plain Coffee" ∧
  (∀ i x, [Coffee] !! i = Some x → h' !! i = Some x) ∧
  ([Coffee] !! 0%nat = Some Coffee →
   cost 1 h' 0%nat = Some 50 ∧
   description 1 h' 0%nat = Some "Plain Coffee") ∧
  [Coffee] !! r = None ∧
  h' !! r = Some (Milk 0%nat) ∧
  r ≠ 0%nat.
Proof.
  apply (wrap_leaves_wrapped_unchanged [Coffee] 0%nat Milk 1 50
           "Plain Coffee"); reflexivity.
Defined.
End Eg1_Coffee_Shop_facts.

(** * Eg2_Notification_System: notifiers *)
Section Eg2_Notification_System_facts.
Import Eg2_Notification_System.
Implicit Types (h : heap) (r : ref) (d : channel) (ds : list channel).
Implicit Types (m : string) (out : console).

(** One call frame of [send]. *)
Lemma send_S n h r m out :
  send (S n) h r m out =
  match h !! r with
  | None => None
  | Some BasicNotifier => Some (print ("Basic Notificatio: " +:+ m) out)
  | Some (NotificationDecorator x) => send n h x m out
  | Some (EmailNotifier x) =>
      out ← send n h x m out; Some (print ("📧 Sending Email: " +:+ m) out)
  | Some (SMSNotifier x) =>
      out ← send n h x m out; Some (print ("📱 Sending SMS: " +:+ m) out)
  | Some (PushNotifier x) =>
      out ← send n h x m out;
      Some (print ("🔔 Sending Push Notification: " +:+ m) out)
  end.
Proof. reflexivity. Qed.

Lemma send_fuel_S n h r m out out' :
  send n h r m out = Some out' → send (S n) h r m out = Some out'.
Proof.
  revert r out'. induction n as [|n IH]; intros r out'; [discriminate|].
  rewrite (send_S (S n)), (send_S n).
  destruct (h !! r) as [[|x|x|x|x]|]; try done; try apply IH;
    (destruct (send n h x m out) as [o|] eqn:E; [|discriminate];
     now rewrite (IH _ _ E)).
Qed.

Lemma send_extends n h h' r m out out' :
  extends h h' → send n h r m out = Some out' →
  send n h' r m out = Some out'.
Proof.
  intros Hext. revert r out'.
  induction n as [|n IH]; intros r out'; [done|].
  rewrite !send_S. destruct (h !! r) as [o|] eqn:Hr; [|done].
  rewrite (extends_lookup _ _ _ _ Hext Hr).
  destruct o as [|x|x|x|x]; try done; try apply IH;
    (destruct (send n h x m out) as [o|] eqn:E; [|discriminate];
     now rewrite (IH _ _ E)).
Qed.

(** One layer: the wrapped call, and only then the decorator's line. *)
Lemma send_wrap n d r h m out :
  send (S n) (wrap d r h).1 (wrap d r h).2 m out
  = out1 ← send n (wrap d r h).1 r m out; Some (print (own_line d m) out1).
Proof. unfold wrap. rewrite send_S, lookup_new. now destruct d. Qed.

Lemma notifier_wrap_all_cons d ds r h :
  wrap_all (d :: ds) r h = wrap_all ds (wrap d r h).2 (wrap d r h).1.
Proof. reflexivity. Qed.

Lemma send_wrap_all ds : ∀ n r h m out out1,
  send n h r m out = Some out1 →
  send (length ds + n) (wrap_all ds r h).1 (wrap_all ds r h).2 m out
  = Some (out1 ++ map (λ d, own_line d m) ds).
Proof.
  induction ds as [|d ds IH]; intros n r h m out out1 H.
  - simpl. now rewrite app_nil_r.
  - rewrite notifier_wrap_all_cons.
    replace (length (d :: ds) + n)%nat with (length ds + S n)%nat
      by (simpl; lia).
    rewrite (IH (S n) _ _ m out (print (own_line d m) out1)).
    + unfold print. now rewrite <- app_assoc.
    + rewrite send_wrap.
      rewrite (send_extends n h _ r m out out1); [done| |done].
      apply extends_new.
Qed.

(** C8. In every concrete notification decorator the wrapped component's
    [send(message)] runs to completion before the decorator's own line is
    printed: the console after the decorator's [send] is the console
    after the wrapped [send] with the decorator's line added at the end,
    and nothing is added when the wrapped [send] does not return.  So
    for every chain around a BasicNotifier the lines come innermost
    first, and the line of the outermost decorator is the last one. *)
Theorem wrapped_send_completes_first
  (h : heap) (c : ref) (d : channel) (ds : list channel) (n k : nat)
  (m : string) (out : console) :
  (let '(h', r) := wrap d c h in
   send (S n) h' r m out
   = out1 ← send n h' c m out; Some (print (own_line d m) out1)) ∧
  (let '(h', r) := chain ds h in
   send (S (length ds) + k) h' r m out
   = Some (out ++ ("Basic Notificatio: " +:+ m)
               :: map (λ d, own_line d m) ds)) ∧
  (let '(h', r) := chain (ds ++ [d]) h in
   ∃ before,
     send (S (length (ds ++ [d])) + k) h' r m out
     = Some (before ++ [own_line d m])).
Proof.
  assert (∀ l, let '(h', r) := chain l h in
               send (S (length l) + k) h' r m out
               = Some (out ++ ("Basic Notificatio: " +:+ m)
                           :: map (λ d, own_line d m) l)) as Hchain.
  { intros l. unfold chain.
    assert (send (S k) (new BasicNotifier h).1 (new BasicNotifier h).2 m out
            = Some (print ("Basic Notificatio: " +:+ m) out)) as Hb
      by now rewrite send_S, lookup_new.
    pose proof (send_wrap_all l _ _ _ _ _ _ Hb) as Hl.
    destruct (new BasicNotifier h) as [h0 b]. cbn [fst snd] in Hl.
    destruct (wrap_all l b h0) as [h' r]. cbn [fst snd] in Hl.
    replace (S (length l) + k)%nat with (length l + S k)%nat by lia.
    rewrite Hl. unfold print. now rewrite <- app_assoc. }
  split; [|split].
  - pose proof (send_wrap n d c h m out) as Hw.
    now destruct (wrap d c h) as [h' r].
  - apply Hchain.
  - specialize (Hchain (ds ++ [d])).
    destruct (chain (ds ++ [d]) h) as [h' r].
    exists (out ++ ("Basic Notificatio: " +:+ m)
                :: map (λ d, own_line d m) ds).
    rewrite Hchain, map_app. simpl.
    now rewrite <- app_assoc.
Qed.
End Eg2_Notification_System_facts.

(** * Both decorator bases *)
Section decorator_base_facts.

(** C6. The abstract decorator base forwards every operation to the
    wrapped component unchanged.  For an [AddonDecorator] around [c1],
    [cost()] and [description()] are [c1.cost()] and [c1.description()],
    whatever these return or raise; for a [NotificationDecorator] around
    [c2], [send(m)] does exactly what [c2.send(m)] does to the console.
    The same holds for the base methods as the subclasses reach them,
    with any dispatch of the inner call. *)
Theorem decorator_base_forwards
  (n : nat) (h1 : Eg1_Coffee_Shop.heap) (r1 c1 : ref)
  (h2 : Eg2_Notification_System.heap) (r2 c2 : ref)
  (m : string) (out : console) :
  h1 !! r1 = Some (Eg1_Coffee_Shop.AddonDecorator c1) →
  h2 !! r2 = Some (Eg2_Notification_System.NotificationDecorator c2) →
  Eg1_Coffee_Shop.cost (S n) h1 r1 = Eg1_Coffee_Shop.cost n h1 c1 ∧
  Eg1_Coffee_Shop.description (S n) h1 r1
    = Eg1_Coffee_Shop.description n h1 c1 ∧
  Eg2_Notification_System.send (S n) h2 r2 m out
    = Eg2_Notification_System.send n h2 c2 m out ∧
  (∀ f, Eg1_Coffee_Shop.AddonDecorator_cost f c1 = f c1) ∧
  (∀ f, Eg1_Coffee_Shop.AddonDecorator_description f c1 = f c1) ∧
  (∀ f, Eg2_Notification_System.NotificationDecorator_send f c2 m out
        = f c2 m out).
Proof.
  intros H1 H2.
  rewrite cost_S, description_S, send_S, H1, H2.
  repeat split.
Qed.

Lemma decorator_base_forwards_witness :
  Eg1_Coffee_Shop.cost 2
    [Eg1_Coffee_Shop.Coffee; Eg1_Coffee_Shop.AddonDecorator 0%nat] 1%nat
  = Eg1_Coffee_Shop.cost 1
      [Eg1_Coffee_Shop.Coffee; Eg1_Coffee_Shop.AddonDecorator 0%nat] 0%nat ∧
  Eg1_Coffee_Shop.description 2
    [Eg1_Coffee_Shop.Coffee; Eg1_Coffee_Shop.AddonDecorator 0%nat] 1%nat
  = Eg1_Coffee_Shop.description 1
      [Eg1_Coffee_Shop.Coffee; Eg1_Coffee_Shop.AddonDecorator 0%nat] 0%nat ∧
  Eg2_Notification_System.send 2
    [Eg2_Notification_System.BasicNotifier;
     Eg2_Notification_System.NotificationDecorator 0%nat] 1%nat "hi" []
  = Eg2_Notification_System.send 1
      [Eg2_Notification_System.BasicNotifier;
       Eg2_Notification_System.NotificationDecorator 0%nat] 0%nat "hi" [] ∧
  (∀ f, Eg1_Coffee_Shop.AddonDecorator_cost f 0%nat = f 0%nat) ∧
  (∀ f, Eg1_Coffee_Shop.AddonDecorator_description f 0%nat = f 0%nat) ∧
  (∀ f, Eg2_Notification_System.NotificationDecorator_send f 0%nat "hi" []
        = f 0%nat "hi" []).
Proof.
  apply (decorator_base_forwards 1
           [Eg1_Coffee_Shop.Coffee; Eg1_Coffee_Shop.AddonDecorator 0%nat]
           1%nat 0%nat
           [Eg2_Notification_System.BasicNotifier;
            Eg2_Notification_System.NotificationDecorator 0%nat]
           1%nat 0%nat "hi" []); reflexivity.
Defined.
End decorator_base_facts.

(** * factory: the notification products *)
Section factory_facts.
Import factory.
Implicit Types (h : heap) (t message : string) (out : console).

Lemma get_notification_factory_unknown t h :
  t ≠ "email" → t ≠ "sms" → t ≠ "push" →
  get_notification_factory t h
  = (h, Raise (ValueError "Invalid notification type")).
Proof.
  intros He Hs Hp. unfold get_notification_factory.
  apply String.eqb_neq in He, Hs, Hp. now rewrite He, Hs, Hp.
Qed.

(** C3. For every notification type that is not "email", "sms" or "push",
    [get_notification_factory] raises [ValueError] and the store is as it
    was, so no notification object was made; the client prints the error
    once and does not ask again. *)
Theorem unknown_type_rejected t h out :
  t ≠ "email" → t ≠ "sms" → t ≠ "push" →
  get_notification_factory t h
  = (h, Raise (ValueError "Invalid notification type")) ∧
  main t h out
  = Some (h, print "Error : Invalid notification type" out).
Proof.
  intros He Hs Hp.
  pose proof (get_notification_factory_unknown t h He Hs Hp) as H.
  split; [exact H|]. unfold main. now rewrite H.
Qed.

Lemma unknown_type_rejected_witness :
  get_notification_factory "Email" [PushNotification]
  = ([PushNotification], Raise (ValueError "Invalid notification type")) ∧
  main "Email" [PushNotification] ["hi"]
  = Some ([PushNotification],
          print "Error : Invalid notification type" ["hi"]).
Proof.
  apply (unknown_type_rejected "Email" [PushNotification] ["hi"]);
    compute_done.
Defined.

(** C10. For "email", "sms" and "push", [get_notification_factory] makes
    one object and returns it: an EmailNotification, an SMSNotification
    or a PushNotification, which is a Notification and not a
    NotificationFactory, and whose [notify(message)] prints the line of
    its channel for that message. *)
Theorem known_types_give_products h message out :
  (let '(h', res) := get_notification_factory "email" h in
   h' = h ++ [EmailNotification] ∧
   res = Return (length h) ∧
   h' !! length h = Some EmailNotification ∧
   isinstance_Notification EmailNotification = true ∧
   isinstance_NotificationFactory EmailNotification = false ∧
   notify h' (length h) message out
   = Some (out ++ ["📧 Sending Email: " +:+ message])) ∧
  (let '(h', res) := get_notification_factory "sms" h in
   h' = h ++ [SMSNotification] ∧
   res = Return (length h) ∧
   h' !! length h = Some SMSNotification ∧
   isinstance_Notification SMSNotification = true ∧
   isinstance_NotificationFactory SMSNotification = false ∧
   notify h' (length h) message out
   = Some (out ++ ["📱 Sending SMS: " +:+ message])) ∧
  (let '(h', res) := get_notification_factory "push" h in
   h' = h ++ [PushNotification] ∧
   res = Return (length h) ∧
   h' !! length h = Some PushNotification ∧
   isinstance_Notification PushNotification = true ∧
   isinstance_NotificationFactory PushNotification = false ∧
   notify h' (length h) message out
   = Some (out ++ ["📲 Sending Push Notification: " +:+ message])).
Proof.
  assert (∀ o : object, (h ++ [o]) !! length h = Some o) as Hl.
  { intros o. exact (lookup_new o h). }
  repeat split; cbn [get_notification_factory String.eqb Ascii.eqb];
    try apply Hl; unfold notify; now rewrite Hl.
Qed.
End factory_facts.

(** * singleton *)
Section singleton_facts.
Import singleton.
Implicit Types (w : world) (r : ref).

Lemma new_again w r :
  _lock w = false → _instance w = Some r → __new__ w = Some (w, r).
Proof.
  destruct w as [h i l]. simpl. intros -> ->. reflexivity.
Qed.

Lemma new_first w :
  _lock w = false → _instance w = None →
  __new__ w
  = Some ({| heap := heap w ++ [Singleton];
             _instance := Some (length (heap w));
             _lock := false |}, length (heap w)).
Proof.
  destruct w as [h i l]. simpl. intros -> ->. reflexivity.
Qed.

Lemma calls_again n w r :
  _lock w = false → _instance w = Some r →
  calls n w = Some (w, replicate n r).
Proof.
  intros Hl Hi. induction n as [|n IH]; [reflexivity|].
  cbn [calls]. rewrite (new_again w r Hl Hi). cbn. now rewrite IH.
Qed.

(** C9. Every call of the constructor returns the same instance.  With
    the lock free, the first call returns an object [r] and leaves it in
    [_instance] with the lock free again; any number of calls after that
    all return [r] and change nothing, so the instance is never replaced;
    and an instance that was already set is the one returned. *)
Theorem every_call_same_instance w :
  _lock w = false →
  ∃ w1 r,
    __new__ w = Some (w1, r) ∧
    _instance w1 = Some r ∧
    _lock w1 = false ∧
    (∀ r0, _instance w = Some r0 → r0 = r ∧ w1 = w) ∧
    (_instance w = None → heap w1 !! r = Some Singleton) ∧
    (∀ n, calls n w1 = Some (w1, replicate n r)) ∧
    (∀ n rs r', calls n w1 = Some (w1, rs) → r' ∈ rs → r' = r).
Proof.
  intros Hl.
  assert (∃ w1 r, __new__ w = Some (w1, r) ∧ _instance w1 = Some r ∧
                  _lock w1 = false ∧
                  (∀ r0, _instance w = Some r0 → r0 = r ∧ w1 = w) ∧
                  (_instance w = None → heap w1 !! r = Some Singleton))
    as (w1 & r & Hnew & Hi & Hl1 & Hold & Hobj).
  { destruct (_instance w) as [r|] eqn:Hi.
    - exists w, r. rewrite (new_again w r Hl Hi).
      do 3 (split; [done|]). split; [|done].
      intros r0 [= ->]. now split.
    - eexists _, _. rewrite (new_first w Hl Hi).
      do 3 (split; [reflexivity|]). split; [done|].
      intros _. cbn [heap]. exact (lookup_new Singleton (heap w)). }
  exists w1, r. do 5 (split; [assumption|]). split.
  - intros n. now apply calls_again.
  - intros n rs r'. rewrite (calls_again n w1 r Hl1 Hi).
    intros [= <-] Hin. now apply elem_of_replicate in Hin as [-> _].
Qed.

Lemma every_call_same_instance_witness :
  ∃ w1 r,
    __new__ initial = Some (w1, r) ∧
    _instance w1 = Some r ∧
    _lock w1 = false ∧
    (∀ r0, _instance initial = Some r0 → r0 = r ∧ w1 = initial) ∧
    (_instance initial = None → heap w1 !! r = Some Singleton) ∧
    (∀ n, calls n w1 = Some (w1, replicate n r)) ∧
    (∀ n rs r', calls n w1 = Some (w1, rs) → r' ∈ rs → r' = r).
Proof. apply (every_call_same_instance initial). reflexivity. Defined.

Example script_prints_True :
  script initial
  = Some ({| heap := [Singleton]; _instance := Some 0%nat;
             _lock := false |}, true).
Proof. reflexivity. Qed.
End singleton_facts.

(** * Stores that only constructors have written *)
Section backward_facts.
Context {object : Type}.
Variable field : object → option ref.
Implicit Types (h : list object) (o : object).

Lemma backward_from_app i h h' :
  backward_from field i (h ++ h')
  = backward_from field i h && backward_from field (i + length h) h'.
Proof.
  revert i. induction h as [|o h IH]; intros i; simpl.
  - now rewrite Nat.add_0_r.
  - rewrite IH, andb_assoc.
    now replace (i + S (length h))%nat with (S i + length h)%nat by lia.
Qed.

Lemma backward_from_lookup i h j o b :
  backward_from field i h = true →
  h !! j = Some o → field o = Some b → (b < i + j)%nat.
Proof.
  revert i j. induction h as [|x h IH]; intros i j Hb Hj Hf; [done|].
  simpl in Hb. apply andb_true_iff in Hb as [Hx Hh].
  destruct j as [|j]; simpl in Hj.
  - injection Hj as ->. rewrite Hf in Hx. apply Nat.ltb_lt in Hx. lia.
  - specialize (IH (S i) j Hh Hj Hf). lia.
Qed.

Lemma backward_lookup h j o b :
  backward field h = true → h !! j = Some o → field o = Some b → (b < j)%nat.
Proof. intros Hb Hj Hf. exact (backward_from_lookup 0 h j o b Hb Hj Hf). Qed.

Lemma backward_new h o :
  backward field h = true →
  (∀ b, field o = Some b → (b < length h)%nat) →
  backward field (new o h).1 = true.
Proof.
  intros Hb Ho. unfold backward. rewrite new_heap, backward_from_app.
  apply andb_true_iff. split; [exact Hb|]. simpl.
  destruct (field o) as [b|]; [|done].
  rewrite andb_true_r. apply Nat.ltb_lt. now apply Ho.
Qed.
End backward_facts.

(** * Strings *)
Section string_facts.
Implicit Types (a b c : string).

Lemma string_app_cons x a b : String x a +:+ b = String x (a +:+ b).
Proof. reflexivity. Qed.

Lemma string_app_assoc a b c : a +:+ (b +:+ c) = (a +:+ b) +:+ c.
Proof.
  induction a as [|x a IH]; [done|]. now rewrite !string_app_cons, IH.
Qed.

Lemma string_app_nil_r a : a +:+ "" = a.
Proof.
  induction a as [|x a IH]; [done|]. now rewrite string_app_cons, IH.
Qed.

Lemma string_app_length a b :
  String.length (a +:+ b) = (String.length a + String.length b)%nat.
Proof.
  induction a as [|x a IH]; [done|].
  rewrite string_app_cons. simpl. now rewrite IH.
Qed.

Lemma list_ascii_of_string_app a b :
  list_ascii_of_string (a +:+ b)
  = list_ascii_of_string a ++ list_ascii_of_string b.
Proof.
  induction a as [|x a IH]; [done|].
  rewrite string_app_cons. simpl. now rewrite IH.
Qed.

Lemma list_ascii_of_string_inj a b :
  list_ascii_of_string a = list_ascii_of_string b → a = b.
Proof.
  intros H. rewrite <- (string_of_list_ascii_of_string a),
    <- (string_of_list_ascii_of_string b). now rewrite H.
Qed.

(** Two texts with the same ending of the same length. *)
Lemma string_app_inj_r a b c c' :
  String.length c = String.length c' →
  a +:+ c = b +:+ c' → a = b ∧ c = c'.
Proof.
  intros Hlen H. apply (f_equal list_ascii_of_string) in H.
  rewrite !list_ascii_of_string_app in H.
  apply app_inj_2 in H as [Ha Hc].
  - split; now apply list_ascii_of_string_inj.
  - clear H. revert c' Hlen.
    induction c as [|x c IH]; intros [|y c'] Hlen; try done.
    simpl in *. f_equal. apply IH. lia.
Qed.
End string_facts.

(** * Eg1_Coffee_Shop: more on beverages *)
Section Eg1_Coffee_Shop_more.
Import Eg1_Coffee_Shop.
Implicit Types (h : heap) (b r : ref) (d : addon) (ds : list addon).

Lemma wrap_all_ref_bound ds : ∀ b h,
  (b < length h)%nat →
  ((wrap_all ds b h).2 < length (wrap_all ds b h).1)%nat.
Proof.
  induction ds as [|d ds IH]; intros b h Hb; [exact Hb|].
  rewrite wrap_all_cons. apply IH. unfold wrap.
  rewrite new_heap, new_ref, length_app. simpl. lia.
Qed.

Lemma wrap_all_backward ds : ∀ b h,
  backward beverage h = true → (b < length h)%nat →
  backward beverage (wrap_all ds b h).1 = true.
Proof.
  induction ds as [|d ds IH]; intros b h Hh Hb; [exact Hh|].
  rewrite wrap_all_cons. apply IH.
  - apply backward_new; [exact Hh|].
    intros x Hx. destruct d; injection Hx as <-; exact Hb.
  - unfold wrap. rewrite new_heap, new_ref, length_app. simpl. lia.
Qed.

(** X1. The constructors keep the store backward-pointing.  When every
    field of every object refers to an older object, this is still so
    after a Coffee is made, after any decorator is made around an object
    of the store, and after a whole chain is built around one. *)
Theorem constructors_keep_store_backward
  (h : heap) (c : ref) (ds : list addon) :
  backward beverage h = true →
  (c < length h)%nat →
  backward beverage (new Coffee h).1 = true ∧
  backward beverage (new (AddonDecorator c) h).1 = true ∧
  backward beverage (new (Milk c) h).1 = true ∧
  backward beverage (new (Sugar c) h).1 = true ∧
  backward beverage (new (Caramel c) h).1 = true ∧
  backward beverage (wrap_all ds c h).1 = true ∧
  backward beverage (order ds h).1 = true.
Proof.
  intros Hh Hc.
  assert (∀ o, (∀ b, beverage o = Some b → (b < length h)%nat) →
               backward beverage (new o h).1 = true) as Hnew
    by (intros o; now apply backward_new).
  do 5 (split; [apply Hnew; intros b [= <-]; exact Hc|]).
  split; [now apply wrap_all_backward|].
  unfold order.
  change (backward beverage
            (wrap_all ds (new Coffee h).2 (new Coffee h).1).1 = true).
  apply wrap_all_backward.
  - apply Hnew. intros b [=].
  - rewrite new_heap, new_ref, length_app. simpl. lia.
Qed.

Lemma constructors_keep_store_backward_witness :
  backward beverage (new Coffee [Coffee; Milk 0%nat]).1 = true ∧
  backward beverage (new (AddonDecorator 1%nat) [Coffee; Milk 0%nat]).1
  = true ∧
  backward beverage (new (Milk 1%nat) [Coffee; Milk 0%nat]).1 = true ∧
  backward beverage (new (Sugar 1%nat) [Coffee; Milk 0%nat]).1 = true ∧
  backward beverage (new (Caramel 1%nat) [Coffee; Milk 0%nat]).1 = true ∧
  backward beverage
    (wrap_all [AddSugar; AddCaramel] 1%nat [Coffee; Milk 0%nat]).1 = true ∧
  backward beverage (order [AddSugar; AddCaramel] [Coffee; Milk 0%nat]).1
  = true.
Proof.
  apply (constructors_keep_store_backward [Coffee; Milk 0%nat] 1%nat
           [AddSugar; AddCaramel]); [reflexivity|simpl; lia].
Defined.

(** X2. In a backward-pointing store every object answers: [cost()] and
    [description()] of the object at [r] return within [r + 1] nested
    calls, so no chain that the constructors built can recurse for ever. *)
Theorem every_beverage_answers (h : heap) (r : ref) (k : nat) :
  backward beverage h = true →
  (r < length h)%nat →
  ∃ c s,
    cost (S r + k) h r = Some c ∧ description (S r + k) h r = Some s.
Proof.
  intros Hh. revert k.
  induction r as [r IH] using lt_wf_ind. intros k Hr.
  destruct (lookup_lt_is_Some_2 h r Hr) as [o Ho].
  assert (∀ x, beverage o = Some x →
               ∃ c s, cost (r + k) h x = Some c ∧
                      description (r + k) h x = Some s) as Hin.
  { intros x Hx. pose proof (backward_lookup beverage h r o x Hh Ho Hx) as Hlt.
    destruct (IH x Hlt (r - S x + k)%nat) as (c & s & Hc & Hs); [lia|].
    replace (S x + (r - S x + k))%nat with (r + k)%nat in Hc, Hs by lia.
    eauto. }
  change (S r + k)%nat with (S (r + k)).
  rewrite cost_S, description_S. unfold ref in *. rewrite Ho.
  destruct o as [|x|x|x|x]; [eauto| | | |];
    destruct (Hin x eq_refl) as (c & s & -> & ->); simpl; eauto.
Qed.

Lemma every_beverage_answers_witness :
  ∃ c s,
    cost (S 2 + 0) [Coffee; Milk 0%nat; Sugar 1%nat] 2%nat = Some c ∧
    description (S 2 + 0) [Coffee; Milk 0%nat; Sugar 1%nat] 2%nat = Some s.
Proof.
  apply (every_beverage_answers [Coffee; Milk 0%nat; Sugar 1%nat] 2%nat 0);
    [reflexivity|simpl; lia].
Defined.

Lemma fold_cost_Permutation ds ds' : ∀ base,
  ds ≡ₚ ds' → fold_cost base ds = fold_cost base ds'.
Proof.
  intros base Hp. rewrite !fold_cost_per. unfold per.
  now rewrite !(Permutation_length (filter_Permutation _ _ _ Hp)).
Qed.

(** X5. The price does not depend on the order of the wraps: two orders
    with the same add-ons, each as many times, cost the same, in whatever
    stores they are built. *)
Theorem cost_ignores_wrap_order
  (ds ds' : list addon) (h h' : heap) (k : nat) :
  ds ≡ₚ ds' →
  cost (S (length ds) + k) (order ds h).1 (order ds h).2
  = cost (S (length ds') + k) (order ds' h').1 (order ds' h').2 ∧
  is_Some (cost (S (length ds) + k) (order ds h).1 (order ds h).2).
Proof.
  intros Hp.
  assert (∀ l g, cost (S (length l) + k) (order l g).1 (order l g).2
                 = Some (fold_cost 50 l)) as Hcost.
  { intros l g. unfold order.
    replace (S (length l) + k)%nat with (length l + S k)%nat by lia.
    exact (cost_wrap_all l _ _ _ _ (cost_new_Coffee g k)). }
  rewrite !Hcost. split; [|eauto].
  f_equal. now apply fold_cost_Permutation.
Qed.

Lemma cost_ignores_wrap_order_witness :
  cost (S (length [AddMilk; AddSugar]) + 0)
    (order [AddMilk; AddSugar] []).1 (order [AddMilk; AddSugar] []).2
  = cost (S (length [AddSugar; AddMilk]) + 0)
      (order [AddSugar; AddMilk] [Coffee]).1
      (order [AddSugar; AddMilk] [Coffee]).2 ∧
  is_Some (cost (S (length [AddMilk; AddSugar]) + 0)
             (order [AddMilk; AddSugar] []).1
             (order [AddMilk; AddSugar] []).2).
Proof.
  apply (cost_ignores_wrap_order [AddMilk; AddSugar] [AddSugar; AddMilk]
           [] [Coffee] 0).
  apply perm_swap.
Defined.

Lemma fold_description_snoc base ds d :
  fold_description base (ds ++ [d]) = fold_description base ds +:+ suffix d.
Proof. unfold fold_description. now rewrite fold_left_app. Qed.

Lemma fold_description_length base ds :
  (String.length base ≤ String.length (fold_description base ds))%nat ∧
  (ds ≠ [] →
   String.length base < String.length (fold_description base ds))%nat.
Proof.
  induction ds as [|d ds IH] using rev_ind; [split; [done|congruence]|].
  rewrite fold_description_snoc.
  rewrite string_app_length. destruct IH as [IH _].
  assert (0 < String.length (suffix d))%nat by (destruct d; simpl; lia).
  split; [lia|intros _; lia].
Qed.

Lemma suffix_inj d d' (s s' : string) :
  s +:+ suffix d = s' +:+ suffix d' → d = d' ∧ s = s'.
Proof.
  intros H.
  assert (d = d') as <-.
  { apply (f_equal list_ascii_of_string) in H.
    rewrite !list_ascii_of_string_app in H.
    apply (f_equal (@rev _)) in H. rewrite !rev_app_distr in H.
    destruct d, d'; try done; simpl in H; discriminate H. }
  split; [done|]. now apply (string_app_inj_r s s' (suffix d) (suffix d)).
Qed.

Lemma fold_description_inj (base : string) ds : ∀ ds',
  fold_description base ds = fold_description base ds' → ds = ds'.
Proof.
  induction ds as [|d ds IH] using rev_ind; intros ds' H.
  - destruct ds' as [|d' ds'] using rev_ind; [done|]. clear IHds'.
    pose proof (fold_description_length base (ds' ++ [d'])) as [_ Hlt].
    rewrite <- H in Hlt. simpl in Hlt.
    exfalso. assert (ds' ++ [d'] ≠ []) as Hne by (now destruct ds').
    specialize (Hlt Hne). lia.
  - destruct ds' as [|d' ds'] using rev_ind.
    + pose proof (fold_description_length base (ds ++ [d])) as [_ Hlt].
      rewrite H in Hlt. simpl in Hlt.
      exfalso. assert (ds ++ [d] ≠ []) as Hne by (now destruct ds).
      specialize (Hlt Hne). lia.
    + clear IHds'. rewrite !fold_description_snoc in H.
      apply suffix_inj in H as [-> H]. f_equal. now apply IH.
Qed.

Lemma fold_cost_snoc base ds d :
  fold_cost base (ds ++ [d]) = fold_cost base ds + price_delta d.
Proof. unfold fold_cost. now rewrite fold_left_app. Qed.

Lemma fold_cost_lower base ds : base ≤ fold_cost base ds.
Proof.
  induction ds as [|d ds IH] using rev_ind; [simpl; lia|].
  rewrite fold_cost_snoc. destruct d; simpl; lia.
Qed.

Lemma beverage_shape n h r (c : Z) (s : string) :
  cost n h r = Some c →
  description n h r = Some s →
  ∃ ds, c = fold_cost 50 ds ∧
        s = fold_description "Plain Coffee" ds ∧
        (length ds < n)%nat.
Proof.
  revert r c s. induction n as [|n IH]; intros r c s; [done|].
  rewrite cost_S, description_S.
  destruct (h !! r) as [[|x|x|x|x]|]; try done.
  - intros [= <-] [= <-]. exists []. simpl. repeat split; lia.
  - intros Hc Hs. destruct (IH _ _ _ Hc Hs) as (ds & -> & -> & Hl).
    exists ds. repeat split; lia.
  - destruct (cost n h x) as [c'|] eqn:Ec; [|done].
    destruct (description n h x) as [s'|] eqn:Es; [|done].
    intros [= <-] [= <-]. destruct (IH _ _ _ Ec Es) as (ds & -> & -> & Hl).
    exists (ds ++ [AddMilk]).
    rewrite fold_cost_snoc, fold_description_snoc, length_app.
    simpl. repeat split; lia.
  - destruct (cost n h x) as [c'|] eqn:Ec; [|done].
    destruct (description n h x) as [s'|] eqn:Es; [|done].
    intros [= <-] [= <-]. destruct (IH _ _ _ Ec Es) as (ds & -> & -> & Hl).
    exists (ds ++ [AddSugar]).
    rewrite fold_cost_snoc, fold_description_snoc, length_app.
    simpl. repeat split; lia.
  - destruct (cost n h x) as [c'|] eqn:Ec; [|done].
    destruct (description n h x) as [s'|] eqn:Es; [|done].
    intros [= <-] [= <-]. destruct (IH _ _ _ Ec Es) as (ds & -> & -> & Hl).
    exists (ds ++ [AddCaramel]).
    rewrite fold_cost_snoc, fold_description_snoc, length_app.
    simpl. repeat split; lia.
Qed.

(** X3. Whatever the store, a beverage that answers is a Coffee with
    add-ons: there is a sequence of add-ons, shorter than the calls that
    were needed, of which its cost and its description are the folds over
    50 and "Plain Coffee".  So it costs at least 50, and the base
    decorator and shared inner objects change nothing in this. *)
Theorem beverage_is_coffee_with_addons
  (n : nat) (h : heap) (r : ref) (c : Z) (s : string) :
  cost n h r = Some c →
  description n h r = Some s →
  ∃ ds, c = fold_cost 50 ds ∧
        s = fold_description "Plain Coffee" ds ∧
        (length ds < n)%nat ∧
        50 ≤ c.
Proof.
  intros Hc Hs. destruct (beverage_shape _ _ _ _ _ Hc Hs) as (ds & -> & -> & Hl).
  exists ds. do 3 (split; [done|]). apply fold_cost_lower.
Qed.

Lemma beverage_is_coffee_with_addons_witness :
  ∃ ds, 60 = fold_cost 50 ds ∧
        "Plain Coffee + Milk" = fold_description "Plain Coffee" ds ∧
        (length ds < 3)%nat ∧
        50 ≤ 60.
Proof.
  apply (beverage_is_coffee_with_addons 3
           [Coffee; Milk 0%nat; AddonDecorator 1%nat] 2%nat 60
           "Plain Coffee + Milk"); reflexivity.
Defined.

(** X4. The description fixes the price: two beverages with the same
    description cost the same, in whatever stores they are and however
    they were built. *)
Theorem same_description_same_cost
  (n n' : nat) (h h' : heap) (r r' : ref) (c c' : Z) (s : string) :
  cost n h r = Some c → description n h r = Some s →
  cost n' h' r' = Some c' → description n' h' r' = Some s →
  c = c'.
Proof.
  intros Hc Hs Hc' Hs'.
  destruct (beverage_shape _ _ _ _ _ Hc Hs) as (ds & -> & -> & _).
  destruct (beverage_shape _ _ _ _ _ Hc' Hs') as (ds' & -> & Heq & _).
  now rewrite (fold_description_inj _ _ _ Heq).
Qed.

Lemma same_description_same_cost_witness : 60 = 60.
Proof.
  apply (same_description_same_cost 2 3
           [Coffee; Milk 0%nat] [Coffee; AddonDecorator 0%nat; Milk 1%nat]
           1%nat 2%nat 60 60 "Plain Coffee + Milk"); reflexivity.
Defined.

(** X6. The description tells the order: two chains around a Coffee with
    the same description were built from the same sequence of add-ons. *)
Theorem description_tells_wrap_order
  (ds ds' : list addon) (h h' : heap) (k k' : nat) :
  description (S (length ds) + k) (order ds h).1 (order ds h).2
  = description (S (length ds') + k') (order ds' h').1 (order ds' h').2 →
  ds = ds'.
Proof.
  assert (∀ l g j, description (S (length l) + j) (order l g).1 (order l g).2
                   = Some (fold_description "Plain Coffee" l)) as Hd.
  { intros l g j. unfold order.
    replace (S (length l) + j)%nat with (length l + S j)%nat by lia.
    exact (description_wrap_all l _ _ _ _ (description_new_Coffee g j)). }
  rewrite !Hd. intros [= H]. now apply (fold_description_inj "Plain Coffee").
Qed.

Lemma description_tells_wrap_order_witness :
  description (S (length [AddMilk; AddSugar]) + 0)
    (order [AddMilk; AddSugar] []).1 (order [AddMilk; AddSugar] []).2
  = description (S (length [AddMilk; AddSugar]) + 3)
      (order [AddMilk; AddSugar] [Coffee]).1
      (order [AddMilk; AddSugar] [Coffee]).2 ∧
  [AddMilk; AddSugar] = [AddMilk; AddSugar].
Proof.
  split; [reflexivity|].
  apply (description_tells_wrap_order [AddMilk; AddSugar] [AddMilk; AddSugar]
           [] [Coffee] 0 3).
  reflexivity.
Defined.

Lemma wrap_all_app ds1 : ∀ ds2 b h,
  wrap_all (ds1 ++ ds2) b h
  = wrap_all ds2 (wrap_all ds1 b h).2 (wrap_all ds1 b h).1.
Proof.
  induction ds1 as [|d ds1 IH]; intros ds2 b h; [done|].
  rewrite <- app_comm_cons, !wrap_all_cons. apply IH.
Qed.

(** X7. An order can be extended later.  Wrapping a finished chain in
    more add-ons gives the same store and the same object as ordering
    everything at once, and the shorter chain still answers for itself:
    its cost and description are those of its own add-ons. *)
Theorem extended_order_keeps_the_first
  (ds1 ds2 : list addon) (h : heap) (k : nat) :
  let '(h1, r1) := order ds1 h in
  let '(h2, r2) := wrap_all ds2 r1 h1 in
  order (ds1 ++ ds2) h = (h2, r2) ∧
  cost (S (length ds1) + k) h2 r1 = Some (fold_cost 50 ds1) ∧
  description (S (length ds1) + k) h2 r1
  = Some (fold_description "Plain Coffee" ds1) ∧
  cost (S (length (ds1 ++ ds2)) + k) h2 r2
  = Some (fold_cost (fold_cost 50 ds1) ds2) ∧
  description (S (length (ds1 ++ ds2)) + k) h2 r2
  = Some (fold_description (fold_description "Plain Coffee" ds1) ds2).
Proof.
  pose proof (wrap_all_app ds1 ds2 (new Coffee h).2 (new Coffee h).1) as Happ.
  pose proof (cost_wrap_all ds1 _ _ _ _ (cost_new_Coffee h k)) as Hc1.
  pose proof (description_wrap_all ds1 _ _ _ _ (description_new_Coffee h k))
    as Hd1.
  unfold order. change (let '(h0, coffee) := new Coffee h in
                        wrap_all ds1 coffee h0)
    with (wrap_all ds1 (new Coffee h).2 (new Coffee h).1).
  change (let '(h0, coffee) := new Coffee h in
          wrap_all (ds1 ++ ds2) coffee h0)
    with (wrap_all (ds1 ++ ds2) (new Coffee h).2 (new Coffee h).1).
  rewrite Happ.
  destruct (wrap_all ds1 (new Coffee h).2 (new Coffee h).1) as [h1 r1].
  cbn [fst snd] in *.
  pose proof (wrap_all_extends ds2 r1 h1) as Hext.
  pose proof (cost_wrap_all ds2 _ _ _ _ Hc1) as Hc2.
  pose proof (description_wrap_all ds2 _ _ _ _ Hd1) as Hd2.
  destruct (wrap_all ds2 r1 h1) as [h2 r2]. cbn [fst snd] in *.
  replace (S (length ds1) + k)%nat with (length ds1 + S k)%nat by lia.
  replace (S (length (ds1 ++ ds2)) + k)%nat
    with (length ds2 + (length ds1 + S k))%nat
    by (rewrite length_app; lia).
  split; [done|].
  split; [exact (cost_extends _ _ _ _ _ Hext Hc1)|].
  split; [exact (description_extends _ _ _ _ _ Hext Hd1)|].
  split; [exact Hc2|exact Hd2].
Qed.
End Eg1_Coffee_Shop_more.

(** * Eg2_Notification_System: more on notifiers *)
Section Eg2_Notification_System_more.
Import Eg2_Notification_System.
Implicit Types (h : heap) (r : ref) (d : channel) (ds : list channel).
Implicit Types (m : string) (out : console).

(** X8. [send] only adds lines at the end of the console, and the lines it
    adds do not depend on what was printed before: sending to a used
    console is sending to an empty one, put after what was there.  So a
    call never removes or changes a line, and it returns on the one
    console just when it returns on the other. *)
Theorem send_only_appends (n : nat) (h : heap) (r : ref)
  (m : string) (out : console) :
  send n h r m out = (lines ← send n h r m []; Some (out ++ lines)).
Proof.
  revert r out. induction n as [|n IH]; intros r out; [done|].
  rewrite !send_S. destruct (h !! r) as [[|x|x|x|x]|]; try done;
    try apply IH;
    rewrite (IH x out); destruct (send n h x m []) as [lines|]; try done;
    simpl; unfold print; now rewrite app_assoc.
Qed.

(** X9. Whatever the store, when [send] returns, the first line it printed
    is the BasicNotifier's and every line after it is the own line of a
    concrete decorator, all for the same message; there are fewer
    decorator lines than nested calls were needed. *)
Theorem send_prints_basic_line_first (n : nat) (h : heap) (r : ref)
  (m : string) (out out' : console) :
  send n h r m out = Some out' →
  ∃ ds, out' = out ++ basic_line m :: map (λ d, own_line d m) ds ∧
        (length ds < n)%nat.
Proof.
  revert r out'. induction n as [|n IH]; intros r out'; [done|].
  rewrite send_S. destruct (h !! r) as [[|x|x|x|x]|]; try done.
  - intros [= <-]. exists []. split; [done|simpl; lia].
  - intros H. destruct (IH _ _ H) as (ds & -> & Hl). exists ds.
    split; [done|lia].
  - destruct (send n h x m out) as [o|] eqn:E; [|done]. intros [= <-].
    destruct (IH _ _ E) as (ds & -> & Hl). exists (ds ++ [ViaEmail]).
    rewrite map_app, length_app. unfold print. simpl.
    rewrite <- app_assoc. split; [done|lia].
  - destruct (send n h x m out) as [o|] eqn:E; [|done]. intros [= <-].
    destruct (IH _ _ E) as (ds & -> & Hl). exists (ds ++ [ViaSMS]).
    rewrite map_app, length_app. unfold print. simpl.
    rewrite <- app_assoc. split; [done|lia].
  - destruct (send n h x m out) as [o|] eqn:E; [|done]. intros [= <-].
    destruct (IH _ _ E) as (ds & -> & Hl). exists (ds ++ [ViaPush]).
    rewrite map_app, length_app. unfold print. simpl.
    rewrite <- app_assoc. split; [done|lia].
Qed.

Lemma send_prints_basic_line_first_witness :
  ∃ ds, ["old"; basic_line "hi"; own_line ViaSMS "hi"]
        = ["old"] ++ basic_line "hi" :: map (λ d, own_line d "hi") ds ∧
        (length ds < 2)%nat.
Proof.
  apply (send_prints_basic_line_first 2 [BasicNotifier; SMSNotifier 0%nat]
           1%nat "hi" ["old"]).
  reflexivity.
Defined.

Lemma own_line_inj d d' m : own_line d m = own_line d' m → d = d'.
Proof. destruct d, d'; try done; intros H; cbv in H; discriminate H. Qed.

Lemma own_lines_inj m ds : ∀ ds',
  map (λ d, own_line d m) ds = map (λ d, own_line d m) ds' → ds = ds'.
Proof.
  induction ds as [|d ds IH]; intros [|d' ds']; try done.
  simpl. intros [= H1 H2]. f_equal; [now apply (own_line_inj d d' m)|].
  now apply IH.
Qed.

(** X10. The console tells the chain: two chains around a BasicNotifier
    that print the same lines for a message were built from the same
    sequence of decorators. *)
Theorem console_tells_the_chain
  (ds ds' : list channel) (h h' : heap) (k k' : nat)
  (m : string) (out : console) :
  send (S (length ds) + k) (chain ds h).1 (chain ds h).2 m out
  = send (S (length ds') + k') (chain ds' h').1 (chain ds' h').2 m out →
  ds = ds'.
Proof.
  assert (∀ l g j,
            send (S (length l) + j) (chain l g).1 (chain l g).2 m out
            = Some (out ++ basic_line m :: map (λ d, own_line d m) l)) as Hs.
  { intros l g j. unfold chain.
    assert (send (S j) (new BasicNotifier g).1 (new BasicNotifier g).2 m out
            = Some (print (basic_line m) out)) as Hb
      by now rewrite send_S, lookup_new.
    replace (S (length l) + j)%nat with (length l + S j)%nat by lia.
    change (let '(h0, b) := new BasicNotifier g in wrap_all l b h0)
      with (wrap_all l (new BasicNotifier g).2 (new BasicNotifier g).1).
    rewrite (send_wrap_all l _ _ _ _ _ _ Hb).
    unfold print. now rewrite <- app_assoc. }
  rewrite !Hs. intros [= H]. apply app_inv_head in H.
  injection H as H. now apply (own_lines_inj m).
Qed.

Lemma console_tells_the_chain_witness :
  send (S (length [ViaSMS]) + 0) (chain [ViaSMS] []).1 (chain [ViaSMS] []).2
    "hi" ["old"]
  = send (S (length [ViaSMS]) + 2) (chain [ViaSMS] [BasicNotifier]).1
      (chain [ViaSMS] [BasicNotifier]).2 "hi" ["old"] ∧
  [ViaSMS] = [ViaSMS].
Proof.
  split; [reflexivity|].
  apply (console_tells_the_chain [ViaSMS] [ViaSMS] [] [BasicNotifier] 0 2
           "hi" ["old"]).
  reflexivity.
Defined.



End Eg2_Notification_System_more.

(** * factory: more on the two routes to a product *)
Section factory_more.
Import factory.
Implicit Types (h : heap) (t m : string) (out : console).

Lemma lookup_snoc (o : object) h : (h ++ [o]) !! length h = Some o.
Proof. exact (lookup_new o h). Qed.


(** X12. The creator classes and [get_notification_factory] agree.  When
    [get_notification_factory] of a name returned the object [r], then
    [send_notification] on a creator of the matching class returns, leaves
    the same store, and prints what [r.notify] prints. *)
Theorem creator_and_function_agree
  (h h' : heap) (f r : ref) (creator : object) (t m : string)
  (out : console) :
  h !! f = Some creator →
  (creator = EmailNotificationFactory ∧ t = "email") ∨
  (creator = SMSNotificationFactory ∧ t = "sms") ∨
  (creator = PushNotificationFactory ∧ t = "push") →
  get_notification_factory t h = (h', Return r) →
  send_notification h f m out = (out' ← notify h' r m out; Some (h', out')) ∧
  is_Some (send_notification h f m out).
Proof.
  intros Hf Hmatch Hget.
  unfold send_notification, create_notification. rewrite Hf. simpl.
  destruct Hmatch as [[-> ->]|[[-> ->]|[-> ->]]];
    cbn in Hget; injection Hget as <- <-; simpl;
    unfold notify; rewrite lookup_snoc; simpl; eauto.
Qed.

Lemma creator_and_function_agree_witness :
  send_notification [SMSNotificationFactory] 0%nat "hi" ["old"]
  = (out' ← notify [SMSNotificationFactory; SMSNotification] 1%nat "hi"
              ["old"];
     Some ([SMSNotificationFactory; SMSNotification], out')) ∧
  is_Some (send_notification [SMSNotificationFactory] 0%nat "hi" ["old"]).
Proof.
  apply (creator_and_function_agree [SMSNotificationFactory]
           [SMSNotificationFactory; SMSNotification] 0%nat 1%nat
           SMSNotificationFactory "sms" "hi" ["old"]);
    [reflexivity|right; left; split; reflexivity|reflexivity].
Defined.

(** X13. Which object answers which method.  [notify] returns exactly on
    the three products, [create_notification] and [send_notification]
    exactly on the three creators, and no object is both; calling the
    method of the other family raises. *)
Theorem products_notify_creators_create
  (h : heap) (r : ref) (o : object) (m : string) (out : console) :
  h !! r = Some o →
  (is_Some (notify h r m out) ↔ isinstance_Notification o = true) ∧
  (is_Some (create_notification h r)
   ↔ isinstance_NotificationFactory o = true) ∧
  (is_Some (send_notification h r m out)
   ↔ isinstance_NotificationFactory o = true) ∧
  isinstance_Notification o = negb (isinstance_NotificationFactory o).
Proof.
  intros Hr. unfold send_notification, create_notification, notify.
  rewrite Hr. simpl.
  destruct o; simpl; try rewrite lookup_snoc; simpl;
    repeat split; intros H; try done; try (now destruct H); eauto.
Qed.

Lemma products_notify_creators_create_witness :
  (is_Some (notify [PushNotificationFactory] 0%nat "hi" [])
   ↔ isinstance_Notification PushNotificationFactory = true) ∧
  (is_Some (create_notification [PushNotificationFactory] 0%nat)
   ↔ isinstance_NotificationFactory PushNotificationFactory = true) ∧
  (is_Some (send_notification [PushNotificationFactory] 0%nat "hi" [])
   ↔ isinstance_NotificationFactory PushNotificationFactory = true) ∧
  isinstance_Notification PushNotificationFactory
  = negb (isinstance_NotificationFactory PushNotificationFactory).
Proof.
  apply (products_notify_creators_create [PushNotificationFactory] 0%nat
           PushNotificationFactory "hi" []).
  reflexivity.
Defined.

End factory_more.

(** * singleton: several callers *)
Section singleton_more.
Import singleton.
Implicit Types (w : world) (p q : pc) (ts : list pc) (i j : nat).

Lemma thread_ok_instance w w' p :
  _instance w' = _instance w → thread_ok w p → thread_ok w' p.
Proof. intros H. destruct p; simpl; now rewrite ?H. Qed.

Lemma lookup_insert_cases ts i p' j q :
  <[i:=p']> ts !! j = Some q →
  (j = i ∧ q = p') ∨ (j ≠ i ∧ ts !! j = Some q).
Proof.
  intros H. apply list_lookup_insert_Some in H as [(-> & -> & _)|[Hne H]];
    [now left|right]. split; [congruence|done].
Qed.

Lemma invariant_start w0 n :
  _lock w0 = false → invariant w0 (w0, replicate n Calling).
Proof.
  intros Hl. constructor; simpl.
  - intros i j p q Hi Hj Hp. now apply lookup_replicate_1 in Hi as [-> _].
  - rewrite Hl. split; [done|]. intros (i & p & Hi & Hp).
    now apply lookup_replicate_1 in Hi as [-> _].
  - intros i p Hi. now apply lookup_replicate_1 in Hi as [-> _].
  - now left.
Qed.

(** A caller that moves within the block, in a world with the same lock. *)
Lemma invariant_move w0 w w' ts i p p' :
  invariant w0 (w, ts) →
  ts !! i = Some p → inside p = true → inside p' = true →
  _lock w' = _lock w →
  (∀ j q, j ≠ i → ts !! j = Some q → thread_ok w' q) →
  thread_ok w' p' →
  (_instance w' = _instance w0 ∧ heap w' = heap w0) ∨
  (_instance w0 = None ∧ _instance w' = Some (length (heap w0)) ∧
   heap w' = heap w0 ++ [Singleton]) →
  invariant w0 (w', <[i:=p']> ts).
Proof.
  intros [Hex Hlock Hok Hst] Hi Hp Hp' Hl Hothers Hnew Hstore.
  simpl in *. constructor; simpl.
  - intros j k q1 q2 Hj Hk H1 H2.
    apply lookup_insert_cases in Hj as [[-> ->]|[Hnj Hj]];
      apply lookup_insert_cases in Hk as [[-> ->]|[Hnk Hk]]; try done.
    + symmetry. exact (Hex _ _ _ _ Hk Hi H2 Hp).
    + exact (Hex _ _ _ _ Hj Hi H1 Hp).
    + exact (Hex _ _ _ _ Hj Hk H1 H2).
  - rewrite Hl. split.
    + intros _. exists i, p'. split; [|done].
      apply list_lookup_insert_eq. now apply lookup_lt_Some in Hi.
    + intros _. apply Hlock. eauto.
  - intros j q Hj. apply lookup_insert_cases in Hj as [[-> ->]|[Hnj Hj]];
      [exact Hnew|eauto].
  - exact Hstore.
Qed.

Lemma step_invariant w0 i c c' :
  invariant w0 c → step i c = Some c' → invariant w0 c'.
Proof.
  destruct c as [w ts]. intros Hinv.
  pose proof Hinv as [Hex Hlock Hok Hst]. simpl in *.
  unfold step. simpl. destruct (ts !! i) as [p|] eqn:Hi; [|done]. simpl.
  destruct (thread_step w p) as [[w' p']|] eqn:Hstep; [|done]. simpl.
  intros [= <-]. pose proof (Hok i p Hi) as Hp.
  destruct p; simpl in Hstep, Hp.
  - (* entering the block *)
    unfold acquire in Hstep. destruct (_lock w) eqn:Hl; [done|].
    simpl in Hstep. injection Hstep as <- <-.
    assert (∀ j q, ts !! j = Some q → inside q = false) as Hnone.
    { intros j q Hj. destruct (inside q) eqn:Hq; [|done].
      assert (false = true) by (apply Hlock; eauto). done. }
    constructor; simpl.
    + intros j k q1 q2 Hj Hk H1 H2.
      apply lookup_insert_cases in Hj as [[-> ->]|[Hnj Hj]];
        [|now rewrite (Hnone _ _ Hj) in H1].
      apply lookup_insert_cases in Hk as [[-> ->]|[Hnk Hk]];
        [done|now rewrite (Hnone _ _ Hk) in H2].
    + split; [|done]. intros _. exists i, Testing. split; [|done].
      apply list_lookup_insert_eq. now apply lookup_lt_Some in Hi.
    + intros j q Hj.
      apply lookup_insert_cases in Hj as [[-> ->]|[Hnj Hj]]; [exact I|].
      apply (thread_ok_instance w); [done|eauto].
    + exact Hst.
  - (* the test *)
    destruct (_instance w) as [r|] eqn:Hinst; injection Hstep as <- <-.
    + apply (invariant_move w0 w w ts i Testing Reading Hinv Hi);
        [done|done|done|intros j q _ Hj; eauto|
         |exact (inv_store _ _ Hinv)].
      simpl. rewrite Hinst. eauto.
    + apply (invariant_move w0 w w ts i Testing Creating Hinv Hi);
        [done|done|done|intros j q _ Hj; eauto|exact Hinst|
         exact (inv_store _ _ Hinv)].
  - (* making the instance *)
    injection Hstep as <- <-.
    assert (heap w = heap w0 ∧ _instance w0 = None) as [Hheap Hinst0].
    { destruct Hst as [[<- ->]|(_ & Hs & _)]; [done|congruence]. }
    apply (invariant_move w0 w _ ts i Creating Reading Hinv Hi);
      [done|done|done| | |].
    + intros j q Hnj Hj. pose proof (Hok j q Hj) as Hq.
      destruct q; simpl in *; try done; try congruence;
        try (exfalso; apply Hnj; exact (Hex _ _ _ _ Hj Hi eq_refl eq_refl));
        try (destruct Hq as [x Hx]; congruence).
    + simpl. eauto.
    + right. simpl. rewrite Hheap. done.
  - (* reading the instance *)
    destruct (_instance w) as [r|] eqn:Hinst; [|done].
    simpl in Hstep. injection Hstep as <- <-.
    apply (invariant_move w0 w w ts i Reading (Leaving r) Hinv Hi);
      [done|done|done|intros j q _ Hj; eauto|exact Hinst|
       exact (inv_store _ _ Hinv)].
  - (* leaving the block *)
    injection Hstep as <- <-. constructor; simpl.
    + intros j k q1 q2 Hj Hk H1 H2.
      apply lookup_insert_cases in Hj as [[-> ->]|[Hnj Hj]]; [done|].
      apply lookup_insert_cases in Hk as [[-> ->]|[Hnk Hk]]; [done|].
      exact (Hex _ _ _ _ Hj Hk H1 H2).
    + split; [done|]. intros (j & q & Hj & Hq).
      apply lookup_insert_cases in Hj as [[-> ->]|[Hnj Hj]]; [done|].
      exfalso. apply Hnj. exact (Hex _ _ _ _ Hj Hi Hq eq_refl).
    + intros j q Hj.
      apply lookup_insert_cases in Hj as [[-> ->]|[Hnj Hj]]; [exact Hp|].
      apply (thread_ok_instance w); [done|eauto].
    + exact Hst.
  - done.
Qed.

Lemma run_snoc schedule i c :
  run (schedule ++ [i]) c = default (run schedule c) (step i (run schedule c)).
Proof. unfold run. now rewrite fold_left_app. Qed.

Lemma run_invariant w0 schedule : ∀ c,
  invariant w0 c → invariant w0 (run schedule c).
Proof.
  induction schedule as [|i schedule IH] using rev_ind; intros c Hc;
    [exact Hc|].
  rewrite run_snoc. specialize (IH c Hc).
  destruct (step i (run schedule c)) as [c'|] eqn:Hs; [|exact IH].
  exact (step_invariant w0 i _ c' IH Hs).
Qed.

(** X15. However the callers of [Singleton()] are interleaved, they all
    get the same object.  From a state with the lock free and [n] callers
    about to call, after any schedule: two callers that have returned hold
    the same reference, which is the one in [_instance]; at most one
    caller is in the [with] block; and the store has at most one object
    more than at the start, so the instance was made at most once. *)
Theorem interleaved_callers_same_instance
  (w0 : world) (n : nat) (schedule : list nat) :
  _lock w0 = false →
  let '(w, ts) := run schedule (w0, replicate n Calling) in
  (∀ i j r r',
     ts !! i = Some (Returned r) → ts !! j = Some (Returned r') →
     r = r' ∧ _instance w = Some r) ∧
  (∀ i j p q,
     ts !! i = Some p → ts !! j = Some q →
     inside p = true → inside q = true → i = j) ∧
  (heap w = heap w0 ∨ heap w = heap w0 ++ [Singleton]) ∧
  (∀ r0, _instance w0 = Some r0 → _instance w = Some r0 ∧ heap w = heap w0).
Proof.
  intros Hl.
  pose proof (run_invariant w0 schedule _ (invariant_start w0 n Hl)) as Hinv.
  destruct (run schedule (w0, replicate n Calling)) as [w ts].
  destruct Hinv as [Hex Hlock Hok Hst]. simpl in *.
  split; [|split; [exact Hex|split]].
  - intros i j r r' Hi Hj.
    pose proof (Hok _ _ Hi) as H1. pose proof (Hok _ _ Hj) as H2.
    simpl in *. split; [congruence|done].
  - destruct Hst as [[_ ->]|(_ & _ & ->)]; eauto.
  - intros r0 H0. destruct Hst as [[-> ->]|(Hn & _)]; [done|congruence].
Qed.

Lemma interleaved_callers_same_instance_witness :
  let '(w, ts) := run [0; 1; 0; 0; 1; 0; 0; 1; 1; 1; 1]%nat
                    (initial, replicate 2 Calling) in
  (∀ i j r r',
     ts !! i = Some (Returned r) → ts !! j = Some (Returned r') →
     r = r' ∧ _instance w = Some r) ∧
  (∀ i j p q,
     ts !! i = Some p → ts !! j = Some q →
     inside p = true → inside q = true → i = j) ∧
  (heap w = heap initial ∨ heap w = heap initial ++ [Singleton]) ∧
  (∀ r0, _instance initial = Some r0 →
         _instance w = Some r0 ∧ heap w = heap initial).
Proof.
  apply (interleaved_callers_same_instance initial 2
           [0; 1; 0; 0; 1; 0; 0; 1; 1; 1; 1]%nat).
  reflexivity.
Defined.

Example two_callers_interleaved :
  run [0; 1; 0; 0; 1; 0; 0; 1; 1; 1; 1]%nat (initial, replicate 2 Calling)
  = ({| heap := [Singleton]; _instance := Some 0%nat; _lock := false |},
     [Returned 0%nat; Returned 0%nat]).
Proof. reflexivity. Qed.

(** X16. The callers never get stuck.  In every state that they reach,
    either all of them have returned or one of them can take a step: the
    lock is given back by whoever took it, and [return cls._instance] always
    finds the instance set. *)
Theorem callers_never_deadlock
  (w0 : world) (n : nat) (schedule : list nat) :
  _lock w0 = false →
  let c := run schedule (w0, replicate n Calling) in
  (∀ i p, c.2 !! i = Some p → returned p = true) ∨
  (∃ i, is_Some (step i c)).
Proof.
  intros Hl c.
  pose proof (run_invariant w0 schedule _ (invariant_start w0 n Hl)) as Hinv.
  fold c in Hinv. destruct c as [w ts].
  destruct Hinv as [Hex Hlock Hok Hst]. simpl in *.
  destruct (Forall_Exists_dec (λ p, returned p = true)
              (λ p, returned p = false) 
              (λ p, match returned p as b
                          return {b = true} + {b = false} with
                    | true => left eq_refl
                    | false => right eq_refl
                    end) ts) as [Hall|Hsome].
  { left. intros i p Hi. exact (proj1 (Forall_lookup _ _) Hall i p Hi). }
  right.
  destruct (Forall_Exists_dec (λ p, inside p = false)
              (λ p, inside p = true)
              (λ p, match inside p as b
                          return {b = false} + {b = true} with
                    | true => right eq_refl
                    | false => left eq_refl
                    end) ts) as [Hout|Hin].
  - (* nobody is in the block: the lock is free, a caller can enter *)
    apply Exists_exists in Hsome as (p & Hp & Hr).
    apply list_elem_of_lookup in Hp as [i Hi]. exists i.
    pose proof (proj1 (Forall_lookup _ _) Hout i p Hi) as Hpo.
    assert (_lock w = false) as Hfree.
    { destruct (_lock w) eqn:E; [|done].
      destruct (proj1 Hlock eq_refl) as (j & q & Hj & Hq).
      pose proof (proj1 (Forall_lookup _ _) Hout j q Hj). simpl in *.
      congruence. }
    unfold step. simpl. rewrite Hi. simpl.
    destruct p; try done. simpl. unfold acquire. rewrite Hfree. simpl. eauto.
  - (* somebody is in the block and can go on *)
    apply Exists_exists in Hin as (p & Hp & Hr).
    apply list_elem_of_lookup in Hp as [i Hi]. exists i.
    pose proof (Hok i p Hi) as Hpok.
    unfold step. simpl. rewrite Hi. simpl.
    destruct p; try done; simpl in *;
      destruct (_instance w) as [r'|] eqn:E; simpl; eauto;
      now destruct Hpok.
Qed.

Lemma callers_never_deadlock_witness :
  let c := run [0; 1; 0]%nat (initial, replicate 2 Calling) in
  (∀ i p, c.2 !! i = Some p → returned p = true) ∨
  (∃ i, is_Some (step i c)).
Proof.
  apply (callers_never_deadlock initial 2 [0; 1; 0]%nat). reflexivity.
Defined.

Lemma step_at w ts i p w' p' :
  ts !! i = Some p → thread_step w p = Some (w', p') →
  step i (w, ts) = Some (w', <[i:=p']> ts).
Proof. intros Hi Hs. unfold step. simpl. now rewrite Hi; simpl; rewrite Hs. Qed.

Lemma step_returned w ts i r :
  ts !! i = Some (Returned r) → step i (w, ts) = None.
Proof. intros Hi. unfold step. simpl. now rewrite Hi. Qed.

Lemma run_cons i schedule c :
  run (i :: schedule) c = run schedule (default c (step i c)).
Proof. reflexivity. Qed.

Lemma run_app s1 s2 c : run (s1 ++ s2) c = run s2 (run s1 c).
Proof. unfold run. apply fold_left_app. Qed.

(** Five turns in a row take a caller through the whole of [__new__]. *)
Lemma five_turns w ts i :
  _lock w = false → ts !! i = Some Calling →
  ∃ w' r, __new__ w = Some (w', r) ∧
          _lock w' = false ∧
          run (replicate 5 i) (w, ts) = (w', <[i:=Returned r]> ts).
Proof.
  intros Hl Hi. pose proof (lookup_lt_Some _ _ _ Hi) as Hlt.
  assert (∀ p ts', (<[i:=p]> ts) = ts' → ts' !! i = Some p ∧
                   ∀ q, <[i:=q]> ts' = <[i:=q]> ts) as Hins.
  { intros p ts' <-. split; [now apply list_lookup_insert_eq|].
    intros q. apply list_insert_insert_eq. }
  destruct w as [h inst l]. simpl in Hl. subst l.
  destruct inst as [r|].
  - exists {| heap := h; _instance := Some r; _lock := false |}, r.
    split; [reflexivity|]. split; [reflexivity|].
    cbn [replicate].
    rewrite run_cons. erewrite step_at; [|exact Hi|reflexivity].
    cbn [default from_option id heap _instance _lock release]. destruct (Hins Testing _ eq_refl) as [H1 E1].
    rewrite run_cons. erewrite step_at; [|exact H1|reflexivity].
    cbn [default from_option id heap _instance _lock release]. rewrite E1.
    destruct (Hins Reading _ eq_refl) as [H2 E2].
    rewrite run_cons. erewrite step_at; [|exact H2|reflexivity].
    cbn [default from_option id heap _instance _lock release]. rewrite E2.
    destruct (Hins (Leaving r) _ eq_refl) as [H3 E3].
    rewrite run_cons. erewrite step_at; [|exact H3|reflexivity].
    cbn [default from_option id heap _instance _lock release]. rewrite E3.
    destruct (Hins (Returned r) _ eq_refl) as [H4 E4].
    rewrite run_cons, (step_returned _ _ _ r H4). reflexivity.
  - exists {| heap := h ++ [Singleton]; _instance := Some (length h);
              _lock := false |}, (length h).
    split; [reflexivity|]. split; [reflexivity|].
    cbn [replicate].
    rewrite run_cons. erewrite step_at; [|exact Hi|reflexivity].
    cbn [default from_option id heap _instance _lock release]. destruct (Hins Testing _ eq_refl) as [H1 E1].
    rewrite run_cons. erewrite step_at; [|exact H1|reflexivity].
    cbn [default from_option id heap _instance _lock release]. rewrite E1.
    destruct (Hins Creating _ eq_refl) as [H2 E2].
    rewrite run_cons. erewrite step_at; [|exact H2|reflexivity].
    cbn [default from_option id heap _instance _lock release]. rewrite E2.
    destruct (Hins Reading _ eq_refl) as [H3 E3].
    rewrite run_cons. erewrite step_at; [|exact H3|reflexivity].
    cbn [default from_option id heap _instance _lock release]. rewrite E3.
    destruct (Hins (Leaving (length h)) _ eq_refl) as [H4 E4].
    rewrite run_cons. erewrite step_at; [|exact H4|reflexivity].
    cbn [default from_option id heap _instance _lock release]. rewrite E4. reflexivity.
Qed.

Lemma in_turn_S k n : in_turn k (S n) = replicate 5 k ++ in_turn (S k) n.
Proof. reflexivity. Qed.

Lemma callers_in_turn n : ∀ w (finished : list pc),
  _lock w = false →
  ∃ w' rs,
    calls n w = Some (w', rs) ∧
    run (in_turn (length finished) n) (w, finished ++ replicate n Calling)
    = (w', finished ++ (Returned <$> rs)).
Proof.
  induction n as [|n IH]; intros w finished Hl.
  - exists w, []. split; [reflexivity|]. reflexivity.
  - assert ((finished ++ replicate (S n) Calling) !! length finished
            = Some Calling) as Hi
      by (rewrite lookup_app_r, Nat.sub_diag by lia; reflexivity).
    destruct (five_turns w _ _ Hl Hi) as (w1 & r & Hnew & Hl1 & Hrun).
    destruct (IH w1 (finished ++ [Returned r]) Hl1) as (w' & rs & Hc & Hr).
    exists w', (r :: rs). split.
    + cbn [calls]. rewrite Hnew. simpl. now rewrite Hc.
    + rewrite in_turn_S, run_app, Hrun.
      replace (<[length finished:=Returned r]>
                 (finished ++ replicate (S n) Calling))
        with ((finished ++ [Returned r]) ++ replicate n Calling).
      * rewrite length_app in Hr. simpl in Hr.
        replace (length finished + 1)%nat with (S (length finished)) in Hr
          by lia.
        rewrite Hr. rewrite fmap_cons. now rewrite <- app_assoc.
      * rewrite insert_app_r_alt, Nat.sub_diag by lia.
        simpl. now rewrite <- app_assoc.
Qed.

Lemma run_length schedule c : length (run schedule c).2 = length c.2.
Proof.
  induction schedule as [|i schedule IH] using rev_ind; [reflexivity|].
  rewrite run_snoc.
  destruct (step i (run schedule c)) as [c'|] eqn:Hs; [|exact IH].
  simpl. unfold step in Hs.
  destruct (run schedule c) as [w ts]. simpl in *.
  destruct (ts !! i) as [p|]; [|done]. simpl in Hs.
  destruct (thread_step w p) as [[w1 p1]|]; [|done]. simpl in Hs.
  injection Hs as <-. simpl. now rewrite length_insert.
Qed.

(** X17. Callers that run one after the other do what that many calls of
    [Singleton()] do.  With the lock free and [n] callers about to call,
    when each caller in turn gets five turns in a row, all of them end
    returned, with the objects and in the state that [n] calls one after
    the other give. *)
Theorem callers_in_turn_are_calls (w0 : world) (n : nat) :
  _lock w0 = false →
  ∃ w' rs,
    calls n w0 = Some (w', rs) ∧
    run (in_turn 0 n) (w0, replicate n Calling) = (w', Returned <$> rs) ∧
    length rs = n.
Proof.
  intros Hl. destruct (callers_in_turn n w0 [] Hl) as (w' & rs & Hc & Hr).
  exists w', rs. split; [exact Hc|]. split; [exact Hr|].
  pose proof (run_length (in_turn 0 n) (w0, replicate n Calling)) as Hlen.
  simpl in Hr, Hlen. rewrite Hr in Hlen. simpl in Hlen.
  now rewrite length_fmap, length_replicate in Hlen.
Qed.

Lemma callers_in_turn_are_calls_witness :
  ∃ w' rs,
    calls 3 initial = Some (w', rs) ∧
    run (in_turn 0 3) (initial, replicate 3 Calling)
    = (w', Returned <$> rs) ∧
    length rs = 3%nat.
Proof. apply (callers_in_turn_are_calls initial 3). reflexivity. Defined.

(** X18. With the lock held and nobody in the block to give it back, no
    caller ever moves, whatever the schedule, and a call of [__new__]
    does not return: the lock is not re-entrant. *)
Theorem held_lock_blocks_everyone
  (w0 : world) (n : nat) (schedule : list nat) :
  _lock w0 = true →
  run schedule (w0, replicate n Calling) = (w0, replicate n Calling) ∧
  __new__ w0 = None ∧
  calls (S n) w0 = None.
Proof.
  intros Hl.
  assert (__new__ w0 = None) as Hnew
    by (unfold __new__, acquire; now rewrite Hl).
  split; [|split; [exact Hnew|cbn [calls]; now rewrite Hnew]].
  induction schedule as [|i schedule IH] using rev_ind; [reflexivity|].
  rewrite run_snoc, IH. unfold step. simpl.
  destruct (replicate n Calling !! i) as [p|] eqn:Hi; [|reflexivity].
  apply lookup_replicate_1 in Hi as [-> _]. simpl.
  unfold acquire. now rewrite Hl.
Qed.

Lemma held_lock_blocks_everyone_witness :
  run [0; 1; 0]%nat
    ({| heap := []; _instance := None; _lock := true |},
     replicate 2 Calling)
  = ({| heap := []; _instance := None; _lock := true |},
     replicate 2 Calling) ∧
  __new__ {| heap := []; _instance := None; _lock := true |} = None ∧
  calls (S 2) {| heap := []; _instance := None; _lock := true |} = None.
Proof.
  apply (held_lock_blocks_everyone
           {| heap := []; _instance := None; _lock := true |} 2
           [0; 1; 0]%nat).
  reflexivity.
Defined.
End singleton_more.
